(** * A Whitted-style ray tracer: the shading core of [Renderer.hpp]

    The development embeds the renderer of the repository: the vector
    algebra of [Vector.hpp], the helpers [reflect], [refract] and [fresnel],
    the nearest-hit search [trace], the recursive integrator [castRay] and
    the two frame drivers ([Renderer::Render] writing through stdio, and the
    variant writing through [std::ofstream]).

    Numbers.  The C++ code computes on [float].  The embedding reads every
    [float] as a real number and every arithmetic operator as the exact
    operation on [R]; rounding, infinities and NaN are outside the model.
    Where a property turns on a division by zero, its statement exhibits the
    zero divisor itself; the only quotient by zero that is ever evaluated is
    that of zero, which is zero in [R] whatever the inverse of zero is.
    [int] values ([depth], [maxDepth], [width], [height]) are read as [Z].
    Signed overflow is undefined in C++: [castRay] has no answer where
    [depth + 1] would overflow, and the properties of the frame drivers
    assume dimensions whose product an [int] holds. *)

From Stdlib Require Import Reals Lra Lia ZArith List Bool String.
From Stdlib Require Import Zfloor DecimalString Permutation.
Import ListNotations.

Local Open Scope R_scope.

(** ** Comparisons and the few libm calls *)

(** [a < b] on floats, as a boolean. *)
Definition Rltb (a b : R) : bool := if Rlt_dec a b then true else false.

(** [std::max(a, b)] is [(a < b) ? b : a]. *)
Definition fmax (a b : R) : R := if Rltb a b then b else a.

(** [std::min(a, b)] is [(b < a) ? b : a]. *)
Definition fmin (a b : R) : R := if Rltb b a then b else a.

(** Modelled from the spec: [clamp] lives in a header that is not among the
    sources.  Every call site passes the bounds first and the value last
    ([clamp(-1, 1, dotProduct(I, N))], [clamp(0, 1, framebuffer[i].x)]) and
    the spec reads them as clamping the value into the closed interval. *)
Definition clamp (lo hi v : R) : R := fmax lo (fmin hi v).

(** [powf(b, e)] at the arguments [castRay] gives it: the base is the result
    of [std::max(0.f, _)], hence never negative.  A zero base yields [1] for
    a zero exponent and [0] otherwise (the finite cases of the C function). *)
Definition powf (b e : R) : R :=
  if Req_dec_T b 0 then (if Req_dec_T e 0 then 1 else 0) else Rpower b e.

(** [kInfinity = std::numeric_limits<float>::max()], the largest finite
    binary32 number, [(2^24 - 1) * 2^104]. *)
Definition kInfinity : R := IZR ((2 ^ 24 - 1) * 2 ^ 104).

(** ** [Vector.hpp] *)

Record Vector3f : Type := mkVector3f { x : R; y : R; z : R }.

(** [Vector2f] also names its fields [x] and [y] in the source; they are
    [u2] and [v2] here because a projection name can be declared once. *)
Record Vector2f : Type := mkVector2f { u2 : R; v2 : R }.

(** [Vector3f(float xx)], also the implicit conversion of a scalar. *)
Definition splat (xx : R) : Vector3f := mkVector3f xx xx xx.

(** [Vector3f::operator*(const float &r)]. *)
Definition vscale (a : Vector3f) (r : R) : Vector3f :=
  mkVector3f (x a * r) (y a * r) (z a * r).

(** [Vector3f::operator/(const float &r)]. *)
Definition vdiv (a : Vector3f) (r : R) : Vector3f :=
  mkVector3f (x a / r) (y a / r) (z a / r).

(** [Vector3f::operator*(const Vector3f &v)], component-wise. *)
Definition vmul (a b : Vector3f) : Vector3f :=
  mkVector3f (x a * x b) (y a * y b) (z a * z b).

Definition vsub (a b : Vector3f) : Vector3f :=
  mkVector3f (x a - x b) (y a - y b) (z a - z b).

Definition vadd (a b : Vector3f) : Vector3f :=
  mkVector3f (x a + x b) (y a + y b) (z a + z b).

Definition vneg (a : Vector3f) : Vector3f :=
  mkVector3f (- x a) (- y a) (- z a).

(** [friend operator*(const float &r, const Vector3f &v)]. *)
Definition scalev (r : R) (a : Vector3f) : Vector3f :=
  mkVector3f (x a * r) (y a * r) (z a * r).

Declare Scope vec_scope.
Delimit Scope vec_scope with vec.
Bind Scope vec_scope with Vector3f.
Infix "+v" := vadd (at level 50, left associativity) : vec_scope.
Infix "-v" := vsub (at level 50, left associativity) : vec_scope.
Infix "*v" := vmul (at level 40, left associativity) : vec_scope.
Infix "*s" := vscale (at level 40, left associativity) : vec_scope.
Infix "s*" := scalev (at level 40, left associativity) : vec_scope.
Infix "/s" := vdiv (at level 40, left associativity) : vec_scope.
Local Open Scope vec_scope.

Definition length (a : Vector3f) : R :=
  sqrt (x a * x a + y a * y a + z a * z a).

Definition normalize (a : Vector3f) : Vector3f := a /s length a.

Definition dotProduct (a b : Vector3f) : R :=
  x a * x b + y a * y b + z a * z b.

(** ** The scene, as [Renderer.hpp] uses it *)

(** The material kinds.  The source names two of them in [castRay]'s
    [switch]; the third is whatever reaches the [default] label. *)
Inductive MaterialType : Type :=
| DIFFUSE_AND_GLOSSY
| REFLECTION_AND_REFRACTION
| REFLECTION.

(** Modelled from the spec: [Object] is declared in a header that is not
    among the sources.  The record has the members [castRay] and [trace]
    read, and the three virtual methods with the contract of the spec's
    primitive capability: [intersect] answers with the distance, the local
    index and the uv coordinates, or with nothing. *)
Record Object : Type := mkObject {
  materialType : MaterialType;
  ior : R;
  Kd : R;
  Ks : R;
  specularExponent : R;
  intersect : Vector3f -> Vector3f -> option (R * N * Vector2f);
  getSurfaceProperties :
    Vector3f -> Vector3f -> N -> Vector2f -> Vector3f * Vector2f;
  evalDiffuseColor : Vector2f -> Vector3f
}.

Record Light : Type := mkLight { position : Vector3f; intensity : Vector3f }.

Record Scene : Type := mkScene {
  width : Z;
  height : Z;
  fov : R;
  backgroundColor : Vector3f;
  maxDepth : Z;
  epsilon : R;
  get_objects : list Object;
  get_lights : list Light
}.

Record hit_payload : Type := mkPayload {
  tNear : R;
  index : N;
  uv : Vector2f;
  hit_obj : Object
}.

(** ** [reflect], [refract], [fresnel] *)

Definition reflect (I N : Vector3f) : Vector3f :=
  I -v (2 * dotProduct I N) s* N.

(** The discriminant [t] of [refract]. *)
Definition refract_t (I N : Vector3f) (ior : R) : R :=
  let cosi := Rabs (clamp (-1) 1 (dotProduct I N)) in
  1 - 1 / ior * 1 / ior * (1 - cosi * cosi).

Definition refract (I N : Vector3f) (ior : R) : Vector3f :=
  let cosi := Rabs (clamp (-1) 1 (dotProduct I N)) in
  let t := 1 - 1 / ior * 1 / ior * (1 - cosi * cosi) in
  if Rltb t 0 then splat 0
  else
    let coso := sqrt t in
    (1 / ior) s* I +v (1 / ior * cosi - coso) s* N.

Definition fresnel (I N : Vector3f) (ior : R) : R :=
  let cosi := Rabs (clamp (-1) 1 (dotProduct I N)) in
  let R0 := ((1 - ior) / (1 + ior)) ^ 2 in
  R0 + (1 - R0) * (1 - cosi) ^ 5.

(** ** [trace] *)

(** One iteration of the loop of [trace]; the state is the pair of the
    local [tNear] and the optional payload. *)
Definition trace_step (orig dir : Vector3f)
  (st : R * option hit_payload) (object : Object) : R * option hit_payload :=
  match intersect object orig dir with
  | Some (tNearK, indexK, uvK) =>
      if Rltb tNearK (fst st)
      then (tNearK, Some (mkPayload tNearK indexK uvK object))
      else st
  | None => st
  end.

Definition trace_from (orig dir : Vector3f) (objects : list Object)
  (st : R * option hit_payload) : R * option hit_payload :=
  fold_left (trace_step orig dir) objects st.

Definition trace (orig dir : Vector3f) (objects : list Object)
  : option hit_payload :=
  snd (trace_from orig dir objects (kInfinity, None)).

(** ** [castRay] *)

(** The origin of the reflection ray and of the refraction ray in the
    [REFLECTION_AND_REFRACTION] case. *)
Definition rayOrig_RR (scene : Scene) (hitPoint N newDir : Vector3f)
  : Vector3f :=
  if Rltb (dotProduct newDir N) 0
  then hitPoint -v N *s epsilon scene
  else hitPoint +v N *s epsilon scene.

(** The origin of the reflection ray in the [REFLECTION] case. *)
Definition rayOrig_R (scene : Scene) (hitPoint N newDir : Vector3f)
  : Vector3f :=
  if Rltb (dotProduct newDir N) 0
  then hitPoint +v N *s epsilon scene
  else hitPoint -v N *s epsilon scene.

(** The origin of every shadow ray in the [default] case. *)
Definition shadowPointOrig (scene : Scene) (hitPoint N dir : Vector3f)
  : Vector3f :=
  if Rltb (dotProduct dir N) 0
  then hitPoint +v N *s epsilon scene
  else hitPoint -v N *s epsilon scene.

(** [inShadow] for one light. *)
Definition inShadow (shadow_res : option hit_payload) (lightDistance2 : R)
  : bool :=
  match shadow_res with
  | Some p => Rltb (tNear p * tNear p) lightDistance2
  | None => false
  end.

(** The direction of the shadow ray toward a light. *)
Definition lightDirOf (hitPoint : Vector3f) (light : Light) : Vector3f :=
  normalize (position light -v hitPoint).

(** The shadow test of one light at a hit point. *)
Definition light_inShadow (scene : Scene) (hitPoint N dir : Vector3f)
  (light : Light) : bool :=
  let lightDir := position light -v hitPoint in
  let lightDistance2 := dotProduct lightDir lightDir in
  let lightDir := normalize lightDir in
  inShadow
    (trace (shadowPointOrig scene hitPoint N dir) lightDir (get_objects scene))
    lightDistance2.

(** One iteration of the loop over the lights; the state is the pair
    [(lightAmt, specularColor)]. *)
Definition light_step (scene : Scene) (obj : Object)
  (hitPoint N dir : Vector3f)
  (acc : Vector3f * Vector3f) (light : Light) : Vector3f * Vector3f :=
  let lightDir := position light -v hitPoint in
  let lightDistance2 := dotProduct lightDir lightDir in
  let lightDir := normalize lightDir in
  let LdotN := fmax 0 (dotProduct lightDir N) in
  let shadow_res :=
    trace (shadowPointOrig scene hitPoint N dir) lightDir (get_objects scene) in
  let lightAmt :=
    fst acc +v
    (if inShadow shadow_res lightDistance2 then splat 0
     else intensity light *s LdotN) in
  let reflectionDirection := reflect (vneg lightDir) N in
  let specularColor :=
    snd acc +v
    powf (fmax 0 (- dotProduct reflectionDirection dir))
         (specularExponent obj) s* intensity light in
  (lightAmt, specularColor).

(** The [default] case: the Phong model summed over the lights. *)
Definition phong (scene : Scene) (obj : Object)
  (hitPoint N dir : Vector3f) (st : Vector2f) : Vector3f :=
  let acc :=
    fold_left (light_step scene obj hitPoint N dir) (get_lights scene)
      (splat 0, splat 0) in
  fst acc *v evalDiffuseColor obj st *s Kd obj +v snd acc *s Ks obj.

Notation "'do' a <- e ; k" :=
  (match e with Some a => k | None => None end)
  (at level 10, a name, e at level 100, k at level 200, only parsing).

(** [depth] is an [int].  [depth + 1] has a value only below [INT_MAX];
    at [INT_MAX] the addition overflows, which C++ leaves undefined. *)
Definition INT_MAX : Z := 2147483647.

Definition succ_int (d : Z) : option Z :=
  if (d <? INT_MAX)%Z then Some (d + 1)%Z else None.

(** [castRay].  The C++ function recurses; the embedding recurses on a
    bound [fuel] on the number of nested calls and answers [None] when the
    bound is too small, and also when [depth + 1] overflows. *)
Fixpoint castRay (fuel : nat) (orig dir : Vector3f) (scene : Scene)
  (depth : Z) {struct fuel} : option Vector3f :=
  match fuel with
  | O => None
  | S fuel' =>
    if (depth >? maxDepth scene)%Z then Some (mkVector3f 0 0 0)
    else
      match trace orig dir (get_objects scene) with
      | None => Some (backgroundColor scene)
      | Some payload =>
        let hitPoint := orig +v dir *s tNear payload in
        let '(N, st) :=
          getSurfaceProperties (hit_obj payload) hitPoint dir
            (index payload) (uv payload) in
        match materialType (hit_obj payload) with
        | REFLECTION_AND_REFRACTION =>
          let reflectionDirection := normalize (reflect dir N) in
          let refractionDirection :=
            normalize (refract dir N (ior (hit_obj payload))) in
          let reflectionRayOrig :=
            rayOrig_RR scene hitPoint N reflectionDirection in
          let refractionRayOrig :=
            rayOrig_RR scene hitPoint N refractionDirection in
          do depth1 <- succ_int depth;
          do reflectionColor <-
            castRay fuel' reflectionRayOrig reflectionDirection scene
              depth1;
          do refractionColor <-
            castRay fuel' refractionRayOrig refractionDirection scene
              depth1;
          let kr := fresnel dir N (ior (hit_obj payload)) in
          Some (reflectionColor *s kr +v refractionColor *s (1 - kr))
        | REFLECTION =>
          let kr := fresnel dir N (ior (hit_obj payload)) in
          let reflectionDirection := reflect dir N in
          let reflectionRayOrig :=
            rayOrig_R scene hitPoint N reflectionDirection in
          do depth1 <- succ_int depth;
          do reflectionColor <-
            castRay fuel' reflectionRayOrig reflectionDirection scene
              depth1;
          Some (reflectionColor *s kr)
        | DIFFUSE_AND_GLOSSY =>
          Some (phong scene (hit_obj payload) hitPoint N dir st)
        end
      end
  end.

(** Nested calls never exceed [maxDepth + 2 - depth]. *)
Definition enough_fuel (scene : Scene) (depth : Z) : nat :=
  S (Z.to_nat (maxDepth scene + 1 - depth)).

(** [castRay] as the total function the C++ code is. *)
Definition Shade (orig dir : Vector3f) (scene : Scene) (depth : Z)
  : Vector3f :=
  match castRay (enough_fuel scene depth) orig dir scene depth with
  | Some c => c
  | None => mkVector3f 0 0 0
  end.

(** ** The frame drivers *)

Definition deg2rad (deg : R) : R := deg * PI / 180.

(** [0, 1, ..., n-1], the values of a C++ counting loop. *)
Definition range (n : Z) : list Z := map Z.of_nat (seq 0 (Z.to_nat n)).

(** Conversion of a [float] to an integer type truncates toward zero. *)
Definition Ztrunc (v : R) : Z := if Rltb v 0 then Zceil v else Zfloor v.

(** [(char) v] stored in, or streamed as, one byte.  Values outside the
    range of [char] are undefined in C++; the model gives them the byte
    that the usual conversion through [int] leaves, the low eight bits. *)
Definition to_byte (v : R) : Z := (Ztrunc v mod 256)%Z.

(** The bytes of a string and the decimal digits of an [int]. *)
Fixpoint bytes_of (s : string) : list Z :=
  match s with
  | EmptyString => []
  | String c s' => Z.of_nat (Ascii.nat_of_ascii c) :: bytes_of s'
  end.

Definition decimal (n : Z) : string :=
  NilZero.string_of_int (Z.to_int n).

Definition newline : string := String (Ascii.ascii_of_nat 10) EmptyString.

(** What a driver does with the output file: it returns after writing the
    bytes, it throws, or it runs into undefined behaviour. *)
Inductive outcome : Type :=
| Written (file : list Z)
| Throws (what : string)
| Undefined.

(** [Renderer::Render] of [Renderer.hpp]. *)
Module Stdio.

(** [fopen(path, "wb")]: an empty stream, or the null pointer. *)
Definition fopen (can_open : bool) : option (list Z) :=
  if can_open then Some [] else None.

(** [fprintf] and [fwrite] append to the stream; on the null pointer their
    behaviour is undefined. *)
Definition fput (fp : option (list Z)) (bytes : list Z)
  : option (list Z) :=
  match fp with
  | Some f => Some (f ++ bytes)
  | None => None
  end.

Definition primary_dir (scene : Scene) (i j : Z) : Vector3f :=
  let scale := tan (deg2rad (fov scene * 0.5)) in
  let imageAspectRatio := IZR (width scene) / IZR (height scene) in
  let nx := (IZR i + 0.5) * 2 / IZR (width scene) - 1 in
  let ny := (IZR j + 0.5) * 2 / IZR (height scene) - 1 in
  let x := nx * scale * imageAspectRatio in
  let y := - ny * scale in
  normalize (mkVector3f x y (-1)).

Definition framebuffer (scene : Scene) : list Vector3f :=
  flat_map
    (fun j =>
       map (fun i => Shade (splat 0) (primary_dir scene i j) scene 0)
         (range (width scene)))
    (range (height scene)).

(** The three bytes [color[0..2]] of one framebuffer entry. *)
Definition color (c : Vector3f) : list Z :=
  [ to_byte (255 * clamp 0 1 (x c));
    to_byte (255 * clamp 0 1 (y c));
    to_byte (255 * clamp 0 1 (z c)) ].

Definition header (scene : Scene) : list Z :=
  bytes_of ("P6" ++ newline ++ decimal (width scene) ++ " "
            ++ decimal (height scene) ++ newline ++ "255" ++ newline).

(** The result of [fopen] is used unchecked. *)
Definition Render (can_open : bool) (scene : Scene) : outcome :=
  let fb := framebuffer scene in
  let fp := fopen can_open in
  let fp := fput fp (header scene) in
  let fp := fold_left (fun fp c => fput fp (color c)) fb fp in
  match fp with
  | Some f => Written f
  | None => Undefined
  end.

End Stdio.

(** [Renderer::Render] of the second variant, with [write_ppm_header] and
    [write_ppm_data]. *)
Module Stream.

Definition primary_dir (scene : Scene) (i j : Z) : Vector3f :=
  let focal_length := 1 in
  let viewport_height := tan (deg2rad (fov scene * 0.5)) * focal_length in
  let viewport_width :=
    viewport_height * IZR (width scene) / IZR (height scene) in
  let ndc_x := (IZR j + 0.5) / IZR (width scene) * 2 - 1 in
  let ndc_y := (IZR i + 0.5) / IZR (height scene) * 2 - 1 in
  let y := ndc_y * viewport_height in
  let x := ndc_x * viewport_width in
  normalize (mkVector3f x y (-1)).

(** [frame_buffer[i][j] = 255 * castRay(...)]: rows of scaled colours. *)
Definition frame_buffer (scene : Scene) : list (list Vector3f) :=
  map
    (fun i =>
       map (fun j => 255 s* Shade (splat 0) (primary_dir scene i j) scene 0)
         (range (width scene)))
    (range (height scene)).

(** The three characters streamed for one entry of the frame buffer. *)
Definition pixel (c : Vector3f) : list Z :=
  [ to_byte (x c); to_byte (y c); to_byte (z c) ].

Definition cannot_open : string := "write header error:file cannot open".

(** [write_ppm_header(path, width, height)] streams [height], a blank and
    then [width]. *)
Definition write_ppm_header (can_open : bool) (width height : Z)
  : outcome :=
  if can_open
  then Written (bytes_of ("P6" ++ newline ++ decimal height ++ " "
                          ++ decimal width ++ newline ++ "255" ++ newline))
  else Throws cannot_open.

(** [write_ppm_data] appends to [file] the rows from the last to the
    first. *)
Definition write_ppm_data (can_open : bool) (file : list Z)
  (frame_buffer : list (list Vector3f)) : outcome :=
  if can_open
  then Written (file ++ flat_map (flat_map pixel) (rev frame_buffer))
  else Throws cannot_open.

(** [Render] passes [frame_buffer.size()] as [width] and
    [frame_buffer[0].size()] as [height]; indexing an empty buffer is
    undefined. *)
Definition Render (can_open : bool) (scene : Scene) : outcome :=
  let fb := frame_buffer scene in
  match fb with
  | [] => Undefined
  | row0 :: _ =>
    match write_ppm_header can_open (Z.of_nat (List.length fb))
            (Z.of_nat (List.length row0)) with
    | Written file => write_ppm_data can_open file fb
    | failure => failure
    end
  end.

End Stream.

(** ** The rest of [Vector.hpp] *)

Definition lerp (a b : Vector3f) (t : R) : Vector3f := a +v (b -v a) *s t.

Definition crossProduct (a b : Vector3f) : Vector3f :=
  mkVector3f (y a * z b - z a * y b)
             (z a * x b - x a * z b)
             (x a * y b - y a * x b).

(** ** Statements used by the properties *)

(** What [trace] knows after scanning the primitives [l]: [st] holds the
    nearest distance below [kInfinity] reported in [l], with the first
    primitive that reports it, or nothing if no report is below
    [kInfinity]. *)
Definition scanned (orig dir : Vector3f) (l : list Object)
  (st : R * option hit_payload) : Prop :=
  match snd st with
  | None =>
      fst st = kInfinity
      /\ forall o t i c, In o l -> intersect o orig dir = Some (t, i, c) ->
                         kInfinity <= t
  | Some p =>
      fst st = tNear p
      /\ tNear p < kInfinity
      /\ exists l1 l2,
           l = l1 ++ hit_obj p :: l2
           /\ intersect (hit_obj p) orig dir = Some (tNear p, index p, uv p)
           /\ (forall o t i c, In o l1 ->
                 intersect o orig dir = Some (t, i, c) -> tNear p < t)
           /\ (forall o t i c, In o l2 ->
                 intersect o orig dir = Some (t, i, c) -> tNear p <= t)
  end.

(** The byte of a channel as the spec words it: the colour clamped into
    [[0, 1]], times 255, truncated to an integer. *)
Definition channel_byte_spec (c : R) : Z :=
  Ztrunc (Rmax 0 (Rmin 1 c) * 255).

(** The scene with another maximum recursion depth. *)
Definition with_maxDepth (scene : Scene) (m : Z) : Scene :=
  mkScene (width scene) (height scene) (fov scene) (backgroundColor scene)
    m (epsilon scene) (get_objects scene) (get_lights scene).

(** Every channel of a colour lies between [lo] and [hi]. *)
Definition channels_within (lo hi : R) (c : Vector3f) : Prop :=
  lo <= x c <= hi /\ lo <= y c <= hi /\ lo <= z c <= hi.

(** The scene lit by other lights. *)
Definition with_lights (scene : Scene) (lights : list Light) : Scene :=
  mkScene (width scene) (height scene) (fov scene) (backgroundColor scene)
    (maxDepth scene) (epsilon scene) (get_objects scene) lights.

(** No channel of a colour is negative. *)
Definition nonnegative (c : Vector3f) : Prop :=
  0 <= x c /\ 0 <= y c /\ 0 <= z c.

(** ** Concrete primitives and scenes for the examples *)

(** The horizontal plane [z = h], hit from either side by any ray that is
    not parallel to it and reaches it at a positive distance; its normal is
    the upward unit vector. *)
Definition plane_intersect (h : R) (orig dir : Vector3f)
  : option (R * N * Vector2f) :=
  if Rltb (/ 1000000) (Rabs (z dir)) then
    if Rltb 0 ((h - z orig) / z dir)
    then Some ((h - z orig) / z dir, 0%N, mkVector2f 0 0)
    else None
  else None.

Definition upward : Vector3f := mkVector3f 0 0 1.
Definition downward : Vector3f := mkVector3f 0 0 (-1).

Definition plane (h : R) (m : MaterialType) (ior Kd Ks n : R) : Object :=
  mkObject m ior Kd Ks n
    (plane_intersect h)
    (fun _ _ _ _ => (upward, mkVector2f 0 0))
    (fun _ => splat 1).

(** A primitive that reports an intersection at the distance [kInfinity],
    the value [trace] has stored in [tNearK] before the call. *)
Definition far_object : Object :=
  mkObject DIFFUSE_AND_GLOSSY 1 1 0 1
    (fun _ _ => Some (kInfinity, 0%N, mkVector2f 0 0))
    (fun _ _ _ _ => (upward, mkVector2f 0 0))
    (fun _ => splat 1).

Definition white : Vector3f := splat 1.

(** No primitive at all, a white background. *)
Definition empty_scene : Scene :=
  mkScene 1 1 90 white 0 (/ 1024) [] [].

(** A diffuse ground [z = 0] under a second plane [z = 2] that hides the
    only light, at [(0, 0, 5)]. *)
Definition ground : Object := plane 0 DIFFUSE_AND_GLOSSY 1 1 (/ 2) 25.
Definition ceiling : Object := plane 2 DIFFUSE_AND_GLOSSY 1 1 (/ 2) 25.
Definition lamp : Light := mkLight (mkVector3f 0 0 5) white.

Definition shadow_scene : Scene :=
  mkScene 1 1 90 (splat 0) 5 (/ 1024) [ground; ceiling] [lamp].

(** A mirror [z = 0] under a white sky. *)
Definition mirror : Object := plane 0 REFLECTION 1 0 0 0.

Definition mirror_scene : Scene :=
  mkScene 1 1 90 white 1 (/ 1024) [mirror] [].

(** A refracting plane [z = 0] of index [1/2] under a white sky, met by a
    ray of direction [(3/5, 0, -4/5)]. *)
Definition glass : Object := plane 0 REFLECTION_AND_REFRACTION (/ 2) 0 0 0.

Definition glass_scene : Scene :=
  mkScene 1 1 90 white 5 (/ 1024) [glass] [].

Definition slanted : Vector3f := mkVector3f (3 / 5) 0 (- (4 / 5)).

(** Its mirror image about the plane. *)
Definition slanted_up : Vector3f := mkVector3f (3 / 5) 0 (4 / 5).

(** One pixel, no primitive, a background brighter than [1] in its first
    channel. *)
Definition bright_scene : Scene :=
  mkScene 1 1 90 (mkVector3f 2 (/ 2) 0) 0 (/ 1024) [] [].

(** The mirror scene with the largest maximum depth an [int] holds. *)
Definition endless_scene : Scene :=
  mkScene 1 1 90 white INT_MAX (/ 1024) [mirror] [].

(** The diffuse ground alone, without any light. *)
Definition unlit_scene : Scene :=
  mkScene 1 1 90 white 5 (/ 1024) [ground] [].

(** * Properties *)

(** ** Basic facts *)

Lemma Rltb_true (a b : R) : a < b -> Rltb a b = true.
Proof. intro H. unfold Rltb. destruct (Rlt_dec a b); [reflexivity | contradiction]. Qed.

Lemma Rltb_false (a b : R) : b <= a -> Rltb a b = false.
Proof. intro H. unfold Rltb. destruct (Rlt_dec a b); [lra | reflexivity]. Qed.

Lemma Rltb_spec (a b : R) : Rltb a b = true <-> a < b.
Proof.
  unfold Rltb. destruct (Rlt_dec a b); split; intro H;
    try reflexivity; try assumption; try discriminate; contradiction.
Qed.

Lemma Rltb_nlt (a b : R) : Rltb a b = false <-> b <= a.
Proof.
  unfold Rltb. destruct (Rlt_dec a b); split; intro H;
    try reflexivity; try discriminate; lra.
Qed.

Lemma Vector3f_eq (a b c a' b' c' : R) :
  a = a' -> b = b' -> c = c' -> mkVector3f a b c = mkVector3f a' b' c'.
Proof. intros -> -> ->. reflexivity. Qed.

(** ** [castRay]: the depth guard, misses and termination *)

Lemma castRay_S (fuel : nat) (orig dir : Vector3f) (scene : Scene)
  (depth : Z) :
  (depth <= maxDepth scene)%Z ->
  trace orig dir (get_objects scene) = None ->
  castRay (S fuel) orig dir scene depth = Some (backgroundColor scene).
Proof.
  intros Hd Ht. simpl.
  destruct (Z.gtb_spec depth (maxDepth scene)) as [Hgt | _]; [lia |].
  rewrite Ht. reflexivity.
Qed.

Lemma castRay_black (fuel : nat) (orig dir : Vector3f) (scene : Scene)
  (depth : Z) :
  (depth > maxDepth scene)%Z ->
  castRay (S fuel) orig dir scene depth = Some (mkVector3f 0 0 0).
Proof.
  intro Hd. simpl.
  destruct (Z.gtb_spec depth (maxDepth scene)) as [_ | Hle]; [reflexivity | lia].
Qed.

(** An answer found within some bound on the nested calls is found
    within every bound above [maxDepth + 1 - depth]. *)
Lemma castRay_answer (fuel : nat) :
  forall fuel' orig dir scene depth c,
    castRay fuel orig dir scene depth = Some c ->
    (Z.to_nat (maxDepth scene + 1 - depth) < fuel')%nat ->
    castRay fuel' orig dir scene depth = Some c.
Proof.
  induction fuel as [| fuel IH]; intros fuel' orig dir scene depth c H Hf.
  - discriminate H.
  - destruct fuel' as [| fuel']; [lia |].
    cbn [castRay] in *.
    destruct (Z.gtb_spec depth (maxDepth scene)) as [Hgt | Hle];
      [exact H |].
    destruct (trace orig dir (get_objects scene)) as [payload |]; [| exact H].
    destruct (getSurfaceProperties (hit_obj payload) _ dir _ _) as [N st].
    assert (Hrec : forall d, succ_int depth = Some d ->
                     (Z.to_nat (maxDepth scene + 1 - d) < fuel')%nat).
    { unfold succ_int. intros d Hd.
      destruct (depth <? INT_MAX)%Z; [| discriminate Hd].
      injection Hd as <-. lia. }
    destruct (materialType (hit_obj payload)).
    + exact H.
    + destruct (succ_int depth) as [d |]; [| discriminate H].
      specialize (Hrec d eq_refl).
      destruct (castRay fuel _ (normalize (reflect dir N)) scene d)
        as [c1 |] eqn:E1; [| discriminate H].
      rewrite (IH _ _ _ _ _ _ E1 Hrec).
      destruct (castRay fuel _ (normalize (refract dir N _)) scene d)
        as [c2 |] eqn:E2; [| discriminate H].
      rewrite (IH _ _ _ _ _ _ E2 Hrec). exact H.
    + destruct (succ_int depth) as [d |]; [| discriminate H].
      specialize (Hrec d eq_refl).
      destruct (castRay fuel _ (reflect dir N) scene d)
        as [c1 |] eqn:E1; [| discriminate H].
      rewrite (IH _ _ _ _ _ _ E1 Hrec). exact H.
Qed.

Lemma succ_int_below (scene : Scene) (depth : Z) :
  (maxDepth scene < INT_MAX)%Z -> (depth <= maxDepth scene)%Z ->
  succ_int depth = Some (depth + 1)%Z.
Proof.
  intros Hm Hd. unfold succ_int.
  destruct (Z.ltb_spec depth INT_MAX); [reflexivity | lia].
Qed.

(** With [maxDepth + 2 - depth] nested calls allowed, [castRay] answers,
    provided [maxDepth] is below [INT_MAX]. *)
Lemma castRay_enough (fuel : nat) :
  forall orig dir scene depth,
    (maxDepth scene < INT_MAX)%Z ->
    (Z.to_nat (maxDepth scene + 1 - depth) < fuel)%nat ->
    exists c, castRay fuel orig dir scene depth = Some c.
Proof.
  induction fuel as [| fuel IH]; intros orig dir scene depth Hm Hf.
  - lia.
  - cbn [castRay].
    destruct (Z.gtb_spec depth (maxDepth scene)) as [Hgt | Hle];
      [eexists; reflexivity |].
    destruct (trace orig dir (get_objects scene)) as [payload |];
      [| eexists; reflexivity].
    destruct (getSurfaceProperties (hit_obj payload) _ dir _ _) as [N st].
    assert (Hrec : (Z.to_nat (maxDepth scene + 1 - (depth + 1)) < fuel)%nat)
      by lia.
    rewrite (succ_int_below scene depth Hm Hle).
    destruct (materialType (hit_obj payload)).
    + eexists; reflexivity.
    + destruct (IH (rayOrig_RR scene (orig +v dir *s tNear payload) N
                      (normalize (reflect dir N)))
                   (normalize (reflect dir N)) scene (depth + 1)%Z Hm Hrec)
        as [c1 E1].
      destruct (IH (rayOrig_RR scene (orig +v dir *s tNear payload) N
                      (normalize (refract dir N (ior (hit_obj payload)))))
                   (normalize (refract dir N (ior (hit_obj payload))))
                   scene (depth + 1)%Z Hm Hrec)
        as [c2 E2].
      rewrite E1, E2. eexists; reflexivity.
    + destruct (IH (rayOrig_R scene (orig +v dir *s tNear payload) N
                      (reflect dir N))
                   (reflect dir N) scene (depth + 1)%Z Hm Hrec)
        as [c1 E1].
      rewrite E1. eexists; reflexivity.
Qed.

Lemma Shade_castRay (orig dir : Vector3f) (scene : Scene) (depth : Z) :
  (maxDepth scene < INT_MAX)%Z ->
  castRay (enough_fuel scene depth) orig dir scene depth
  = Some (Shade orig dir scene depth).
Proof.
  intro Hm. unfold Shade.
  destruct (castRay_enough (enough_fuel scene depth) orig dir scene depth Hm)
    as [c E].
  - unfold enough_fuel. lia.
  - rewrite E. reflexivity.
Qed.

Lemma castRay_Shade (fuel : nat) (orig dir : Vector3f) (scene : Scene)
  (depth : Z) (c : Vector3f) :
  castRay fuel orig dir scene depth = Some c ->
  Shade orig dir scene depth = c.
Proof.
  intro H. unfold Shade.
  rewrite (castRay_answer fuel (enough_fuel scene depth) _ _ _ _ _ H);
    [reflexivity | unfold enough_fuel; lia].
Qed.

(** More fuel never changes an answer. *)
Lemma castRay_fuel_plus (n fuel : nat) :
  forall orig dir scene depth c,
    castRay fuel orig dir scene depth = Some c ->
    (Z.to_nat (maxDepth scene + 1 - depth) < fuel)%nat ->
    castRay (fuel + n) orig dir scene depth = Some c.
Proof.
  intros orig dir scene depth c H Hf.
  apply (castRay_answer fuel); [exact H | lia].
Qed.

(** C5, as the code has it.  A ray that hits nothing gets exactly the
    background colour at every depth that does not exceed [maxDepth]. *)
Theorem castRay_miss_background (fuel : nat) (orig dir : Vector3f)
  (scene : Scene) (depth : Z) :
  (depth <= maxDepth scene)%Z ->
  trace orig dir (get_objects scene) = None ->
  castRay (S fuel) orig dir scene depth = Some (backgroundColor scene)
  /\ Shade orig dir scene depth = backgroundColor scene.
Proof.
  intros Hd Ht. split.
  - apply castRay_S; assumption.
  - apply (castRay_Shade 1). apply castRay_S; assumption.
Qed.

Lemma castRay_miss_background_witness :
  castRay 1 (splat 0) downward empty_scene 0 = Some white
  /\ Shade (splat 0) downward empty_scene 0 = white.
Proof.
  apply (castRay_miss_background 0 (splat 0) downward empty_scene 0).
  - simpl. lia.
  - reflexivity.
Defined.

(** C5, as the spec words it, fails one level below the deepest call: the
    ray misses, and the answer is black instead of the white background. *)
Lemma castRay_miss_not_background :
  trace (splat 0) downward (get_objects empty_scene) = None
  /\ Shade (splat 0) downward empty_scene 1 = mkVector3f 0 0 0
  /\ Shade (splat 0) downward empty_scene 1 <> backgroundColor empty_scene.
Proof.
  assert (H : Shade (splat 0) downward empty_scene 1 = mkVector3f 0 0 0).
  { apply (castRay_Shade 1). apply castRay_black. simpl. lia. }
  split; [reflexivity |]. split; [exact H |].
  rewrite H. simpl. unfold white, splat. intro E.
  injection E as E _ _. lra.
Qed.

(** ** [trace]: the nearest hit *)

Lemma scanned_nil (orig dir : Vector3f) :
  scanned orig dir [] (kInfinity, None).
Proof. split; [reflexivity |]. intros o t i c []. Qed.

Lemma scanned_step (orig dir : Vector3f) (l : list Object)
  (st : R * option hit_payload) (o : Object) :
  scanned orig dir l st ->
  scanned orig dir (l ++ [o]) (trace_step orig dir st o).
Proof.
  destruct st as [best [p |]]; unfold scanned, trace_step; simpl.
  - (* a candidate is held *)
    intros (Hb & Hlt & l1 & l2 & Hl & Hp & H1 & H2). subst best.
    destruct (intersect o orig dir) as [[[t i] c] |] eqn:Ho.
    + destruct (Rltb t (tNear p)) eqn:Hcmp; simpl.
      * apply Rltb_spec in Hcmp.
        split; [reflexivity |]. split; [lra |].
        exists l, []. repeat split; try reflexivity; try exact Ho.
        -- intros o' t' i' c' Hin Ho'. subst l.
           apply in_app_or in Hin. destruct Hin as [Hin | [<- | Hin]].
           ++ specialize (H1 _ _ _ _ Hin Ho'). lra.
           ++ rewrite Hp in Ho'. injection Ho' as <- _ _. exact Hcmp.
           ++ specialize (H2 _ _ _ _ Hin Ho'). lra.
        -- intros o' t' i' c' [].
      * apply Rltb_nlt in Hcmp.
        split; [reflexivity |]. split; [exact Hlt |].
        exists l1, (l2 ++ [o]). repeat split; try assumption.
        -- subst l. rewrite <- app_assoc. reflexivity.
        -- intros o' t' i' c' Hin Ho'.
           apply in_app_or in Hin. destruct Hin as [Hin | [<- | []]].
           ++ exact (H2 _ _ _ _ Hin Ho').
           ++ rewrite Ho in Ho'. injection Ho' as <- _ _. exact Hcmp.
    + split; [reflexivity |]. split; [exact Hlt |].
      exists l1, (l2 ++ [o]). repeat split; try assumption.
      * subst l. rewrite <- app_assoc. reflexivity.
      * intros o' t' i' c' Hin Ho'.
        apply in_app_or in Hin. destruct Hin as [Hin | [<- | []]].
        -- exact (H2 _ _ _ _ Hin Ho').
        -- rewrite Ho in Ho'. discriminate Ho'.
  - (* nothing is held yet *)
    intros (Hb & Hall). subst best.
    destruct (intersect o orig dir) as [[[t i] c] |] eqn:Ho.
    + destruct (Rltb t kInfinity) eqn:Hcmp; simpl.
      * apply Rltb_spec in Hcmp.
        split; [reflexivity |]. split; [exact Hcmp |].
        exists l, []. repeat split; try reflexivity; try exact Ho.
        -- intros o' t' i' c' Hin Ho'.
           specialize (Hall _ _ _ _ Hin Ho'). lra.
        -- intros o' t' i' c' [].
      * apply Rltb_nlt in Hcmp.
        split; [reflexivity |].
        intros o' t' i' c' Hin Ho'.
        apply in_app_or in Hin. destruct Hin as [Hin | [<- | []]].
        -- exact (Hall _ _ _ _ Hin Ho').
        -- rewrite Ho in Ho'. injection Ho' as <- _ _. exact Hcmp.
    + split; [reflexivity |].
      intros o' t' i' c' Hin Ho'.
      apply in_app_or in Hin. destruct Hin as [Hin | [<- | []]].
      * exact (Hall _ _ _ _ Hin Ho').
      * rewrite Ho in Ho'. discriminate Ho'.
Qed.

Lemma scanned_trace_from (orig dir : Vector3f) (l2 : list Object) :
  forall l1 st,
    scanned orig dir l1 st ->
    scanned orig dir (l1 ++ l2) (trace_from orig dir l2 st).
Proof.
  induction l2 as [| o l2 IH]; intros l1 st H.
  - rewrite app_nil_r. exact H.
  - simpl.
    replace (l1 ++ o :: l2) with ((l1 ++ [o]) ++ l2)
      by (rewrite <- app_assoc; reflexivity).
    apply IH. apply scanned_step. exact H.
Qed.

Lemma scanned_trace (orig dir : Vector3f) (objects : list Object) :
  scanned orig dir objects (trace_from orig dir objects (kInfinity, None)).
Proof. apply (scanned_trace_from orig dir objects []). apply scanned_nil. Qed.

(** C6, as the code has it.  [trace] returns nothing exactly when no
    primitive reports an intersection at a distance below [kInfinity];
    otherwise it returns the record (distance, primitive, local index, uv)
    of a primitive whose reported distance is below [kInfinity], strictly
    below every distance reported earlier in the scan and not above any
    distance reported later: the nearest report, the first one on a tie. *)
Theorem trace_nearest (orig dir : Vector3f) (objects : list Object) :
  (trace orig dir objects = None <->
   forall o t i c, In o objects -> intersect o orig dir = Some (t, i, c) ->
                   kInfinity <= t)
  /\ forall p, trace orig dir objects = Some p ->
       tNear p < kInfinity
       /\ exists l1 l2,
            objects = l1 ++ hit_obj p :: l2
            /\ intersect (hit_obj p) orig dir = Some (tNear p, index p, uv p)
            /\ (forall o t i c, In o l1 ->
                  intersect o orig dir = Some (t, i, c) -> tNear p < t)
            /\ (forall o t i c, In o l2 ->
                  intersect o orig dir = Some (t, i, c) -> tNear p <= t).
Proof.
  pose proof (scanned_trace orig dir objects) as H.
  unfold trace. unfold scanned in H.
  destruct (snd (trace_from orig dir objects (kInfinity, None))) as [p |].
  - destruct H as (_ & Hlt & l1 & l2 & Hl & Hp & H1 & H2). split.
    + split; [discriminate |].
      intro Hall. exfalso.
      assert (Hin : In (hit_obj p) objects).
      { rewrite Hl. apply in_or_app. right. left. reflexivity. }
      specialize (Hall _ _ _ _ Hin Hp). lra.
    + intros q Hq. injection Hq as <-.
      split; [exact Hlt |]. exists l1, l2. repeat split; assumption.
  - destruct H as (_ & Hall). split.
    + split; [intros _; exact Hall | reflexivity].
    + intros q Hq. discriminate Hq.
Qed.

(** C6, as the spec words it, fails for a primitive that reports an
    intersection at [kInfinity]: [trace] returns nothing. *)
Lemma trace_misses_reported_hit :
  intersect far_object (splat 0) downward
  = Some (kInfinity, 0%N, mkVector2f 0 0)
  /\ trace (splat 0) downward [far_object] = None.
Proof.
  split; [reflexivity |].
  unfold trace, trace_from, trace_step. simpl.
  rewrite Rltb_false; [reflexivity | lra].
Qed.

(** ** One call of [castRay] on a hit, case by case

    The three lemmas spell out what one call hands to the next: the origin
    and direction of each secondary ray and the depth [depth + 1]. *)

Section Hit.

Variables (fuel : nat) (orig dir : Vector3f) (scene : Scene) (depth : Z).
Variables (payload : hit_payload) (hitPoint N : Vector3f) (st : Vector2f).
Variables (reflDir reflOrig refrDir refrOrig : Vector3f).

Hypothesis Hdepth : (depth <= maxDepth scene)%Z.
Hypothesis Htrace : trace orig dir (get_objects scene) = Some payload.
Hypothesis HhitPoint : orig +v dir *s tNear payload = hitPoint.
Hypothesis Hsurface :
  getSurfaceProperties (hit_obj payload) hitPoint dir (index payload)
    (uv payload) = (N, st).
Hypothesis Hint : (depth < INT_MAX)%Z.

Lemma succ_int_depth : succ_int depth = Some (depth + 1)%Z.
Proof.
  unfold succ_int. destruct (Z.ltb_spec depth INT_MAX); [reflexivity | lia].
Qed.

Lemma castRay_REFLECTION :
  materialType (hit_obj payload) = REFLECTION ->
  reflect dir N = reflDir ->
  rayOrig_R scene hitPoint N reflDir = reflOrig ->
  castRay (S fuel) orig dir scene depth
  = match castRay fuel reflOrig reflDir scene (depth + 1) with
    | Some reflectionColor =>
        Some (reflectionColor *s fresnel dir N (ior (hit_obj payload)))
    | None => None
    end.
Proof.
  intros Hm Hr Ho. cbn [castRay].
  destruct (Z.gtb_spec depth (maxDepth scene)) as [Hgt | _]; [lia |].
  rewrite Htrace, HhitPoint, Hsurface, Hm, Hr, Ho, succ_int_depth.
  reflexivity.
Qed.

Lemma castRay_REFLECTION_AND_REFRACTION :
  materialType (hit_obj payload) = REFLECTION_AND_REFRACTION ->
  normalize (reflect dir N) = reflDir ->
  normalize (refract dir N (ior (hit_obj payload))) = refrDir ->
  rayOrig_RR scene hitPoint N reflDir = reflOrig ->
  rayOrig_RR scene hitPoint N refrDir = refrOrig ->
  castRay (S fuel) orig dir scene depth
  = match castRay fuel reflOrig reflDir scene (depth + 1) with
    | Some reflectionColor =>
        match castRay fuel refrOrig refrDir scene (depth + 1) with
        | Some refractionColor =>
            let kr := fresnel dir N (ior (hit_obj payload)) in
            Some (reflectionColor *s kr +v refractionColor *s (1 - kr))
        | None => None
        end
    | None => None
    end.
Proof.
  intros Hm Hr1 Hr2 Ho1 Ho2. cbn [castRay].
  destruct (Z.gtb_spec depth (maxDepth scene)) as [Hgt | _]; [lia |].
  rewrite Htrace, HhitPoint, Hsurface, Hm, Hr1, Hr2, Ho1, Ho2,
    succ_int_depth.
  reflexivity.
Qed.

Lemma castRay_default :
  materialType (hit_obj payload) = DIFFUSE_AND_GLOSSY ->
  castRay (S fuel) orig dir scene depth
  = Some (phong scene (hit_obj payload) hitPoint N dir st).
Proof.
  intros Hm. simpl.
  destruct (Z.gtb_spec depth (maxDepth scene)) as [Hgt | _]; [lia |].
  rewrite Htrace, HhitPoint, Hsurface, Hm. reflexivity.
Qed.

End Hit.

(** C4.  Beyond the maximum recursion depth [castRay] returns black at
    once, whatever the ray and the scene.  That test is the only rule that
    ends the recursion: at any other depth (below [INT_MAX], so that
    [depth + 1] has a value) the answer is the background on a miss, the
    Phong colour on a diffuse hit, and on a reflective hit it is computed
    from the nested calls at [depth + 1], with no other cutoff. *)
Theorem castRay_depth_rule (fuel : nat) (orig dir : Vector3f)
  (scene : Scene) (depth : Z) :
  ((depth > maxDepth scene)%Z ->
   castRay (S fuel) orig dir scene depth = Some (mkVector3f 0 0 0)
   /\ Shade orig dir scene depth = mkVector3f 0 0 0)
  /\ ((depth <= maxDepth scene)%Z -> (depth < INT_MAX)%Z ->
      castRay (S fuel) orig dir scene depth
      = match trace orig dir (get_objects scene) with
        | None => Some (backgroundColor scene)
        | Some payload =>
          let hitPoint := orig +v dir *s tNear payload in
          let '(N, st) :=
            getSurfaceProperties (hit_obj payload) hitPoint dir
              (index payload) (uv payload) in
          let kr := fresnel dir N (ior (hit_obj payload)) in
          match materialType (hit_obj payload) with
          | DIFFUSE_AND_GLOSSY =>
            Some (phong scene (hit_obj payload) hitPoint N dir st)
          | REFLECTION_AND_REFRACTION =>
            match
              castRay fuel
                (rayOrig_RR scene hitPoint N (normalize (reflect dir N)))
                (normalize (reflect dir N)) scene (depth + 1),
              castRay fuel
                (rayOrig_RR scene hitPoint N
                   (normalize (refract dir N (ior (hit_obj payload)))))
                (normalize (refract dir N (ior (hit_obj payload))))
                scene (depth + 1)
            with
            | Some reflectionColor, Some refractionColor =>
              Some (reflectionColor *s kr +v refractionColor *s (1 - kr))
            | _, _ => None
            end
          | REFLECTION =>
            match
              castRay fuel (rayOrig_R scene hitPoint N (reflect dir N))
                (reflect dir N) scene (depth + 1)
            with
            | Some reflectionColor => Some (reflectionColor *s kr)
            | None => None
            end
          end
        end).
Proof.
  split.
  - intro Hd. split.
    + apply castRay_black. exact Hd.
    + apply (castRay_Shade 1). apply castRay_black. exact Hd.
  - intros Hd Hi. cbn [castRay].
    destruct (Z.gtb_spec depth (maxDepth scene)) as [Hgt | _]; [lia |].
    destruct (trace orig dir (get_objects scene)) as [payload |];
      [| reflexivity].
    cbv zeta.
    destruct (getSurfaceProperties (hit_obj payload) _ dir _ _) as [N st].
    unfold succ_int.
    destruct (Z.ltb_spec depth INT_MAX) as [_ | Hge]; [| lia].
    destruct (materialType (hit_obj payload)); reflexivity.
Qed.

Lemma castRay_depth_rule_witness :
  (castRay 1 (mkVector3f 0 0 1) downward mirror_scene 2
   = Some (mkVector3f 0 0 0)
   /\ Shade (mkVector3f 0 0 1) downward mirror_scene 2 = mkVector3f 0 0 0)
  /\ castRay 1 (splat 0) downward empty_scene 0 = Some white.
Proof.
  split.
  - apply (proj1 (castRay_depth_rule 0 (mkVector3f 0 0 1) downward
                    mirror_scene 2)).
    simpl. lia.
  - apply (proj2 (castRay_depth_rule 0 (splat 0) downward empty_scene 0));
      reflexivity.
Defined.

(** C8, as the code has it.  When [maxDepth] is below [INT_MAX],
    [castRay] terminates from every depth.  Beyond [maxDepth] one call
    answers with no nested call; a reflective hit at a depth up to
    [maxDepth] makes its nested calls at [depth + 1]; a bound of
    [maxDepth + 2 - depth] nested calls (and at least one) is always enough
    for an answer, and any larger bound gives the same answer. *)
Theorem castRay_terminates (orig dir : Vector3f) (scene : Scene)
  (depth : Z) (n : nat) :
  (maxDepth scene < INT_MAX)%Z ->
  castRay 1 orig dir scene (maxDepth scene + 1 + Z.of_nat n)
  = Some (mkVector3f 0 0 0)
  /\ Z.of_nat (enough_fuel scene depth) = Z.max 1 (maxDepth scene + 2 - depth)
  /\ castRay (enough_fuel scene depth + n) orig dir scene depth
     = Some (Shade orig dir scene depth)
  /\ (forall fuel payload N st,
        (depth <= maxDepth scene)%Z ->
        trace orig dir (get_objects scene) = Some payload ->
        getSurfaceProperties (hit_obj payload)
          (orig +v dir *s tNear payload) dir (index payload) (uv payload)
        = (N, st) ->
        (materialType (hit_obj payload) = REFLECTION ->
         castRay (S fuel) orig dir scene depth
         = match
             castRay fuel
               (rayOrig_R scene (orig +v dir *s tNear payload) N
                  (reflect dir N))
               (reflect dir N) scene (depth + 1)
           with
           | Some reflectionColor =>
             Some (reflectionColor *s fresnel dir N (ior (hit_obj payload)))
           | None => None
           end)
        /\ (materialType (hit_obj payload) = REFLECTION_AND_REFRACTION ->
            castRay (S fuel) orig dir scene depth
            = match
                castRay fuel
                  (rayOrig_RR scene (orig +v dir *s tNear payload) N
                     (normalize (reflect dir N)))
                  (normalize (reflect dir N)) scene (depth + 1)
              with
              | Some reflectionColor =>
                match
                  castRay fuel
                    (rayOrig_RR scene (orig +v dir *s tNear payload) N
                       (normalize (refract dir N (ior (hit_obj payload)))))
                    (normalize (refract dir N (ior (hit_obj payload))))
                    scene (depth + 1)
                with
                | Some refractionColor =>
                  let kr := fresnel dir N (ior (hit_obj payload)) in
                  Some (reflectionColor *s kr
                        +v refractionColor *s (1 - kr))
                | None => None
                end
              | None => None
              end)).
Proof.
  intro Hm. split; [| split; [| split]].
  - apply castRay_black. lia.
  - unfold enough_fuel. lia.
  - apply castRay_fuel_plus; [apply Shade_castRay; exact Hm |].
    unfold enough_fuel. lia.
  - intros fuel payload N st Hd Ht Hs.
    assert (Hi : (depth < INT_MAX)%Z) by lia.
    split; intro Hmat.
    + exact (castRay_REFLECTION fuel orig dir scene depth payload _ N st
               _ _ Hd Ht eq_refl Hs Hi Hmat eq_refl eq_refl).
    + exact (castRay_REFLECTION_AND_REFRACTION fuel orig dir scene depth
               payload _ N st _ _ _ _ Hd Ht eq_refl Hs Hi Hmat
               eq_refl eq_refl eq_refl eq_refl).
Qed.

Lemma castRay_terminates_witness :
  castRay 1 (mkVector3f 0 0 1) downward mirror_scene
    (maxDepth mirror_scene + 1 + Z.of_nat 0)
  = Some (mkVector3f 0 0 0)
  /\ castRay (enough_fuel mirror_scene 0 + 0) (mkVector3f 0 0 1) downward
       mirror_scene 0
     = Some (Shade (mkVector3f 0 0 1) downward mirror_scene 0).
Proof.
  destruct (castRay_terminates (mkVector3f 0 0 1) downward mirror_scene 0 0)
    as (A & _ & B & _); [reflexivity |].
  split; [exact A | exact B].
Defined.


(** ** Evaluating [trace] on the example planes *)

Lemma kInfinity_large : 1000 < kInfinity.
Proof. unfold kInfinity. apply IZR_lt. reflexivity. Qed.

Lemma trace_from_cons (orig dir : Vector3f) (o : Object) (l : list Object)
  (st : R * option hit_payload) :
  trace_from orig dir (o :: l) st
  = trace_from orig dir l (trace_step orig dir st o).
Proof. reflexivity. Qed.

Lemma trace_step_none (orig dir : Vector3f) (o : Object)
  (st : R * option hit_payload) :
  intersect o orig dir = None -> trace_step orig dir st o = st.
Proof. intro H. unfold trace_step. rewrite H. reflexivity. Qed.

Lemma trace_step_nearer (orig dir : Vector3f) (o : Object)
  (st : R * option hit_payload) (t : R) (i : N) (c : Vector2f) :
  intersect o orig dir = Some (t, i, c) -> t < fst st ->
  trace_step orig dir st o = (t, Some (mkPayload t i c o)).
Proof.
  intros H Hlt. unfold trace_step. rewrite H, Rltb_true by exact Hlt.
  reflexivity.
Qed.

Lemma plane_hit (h : R) (orig dir : Vector3f) (t : R) :
  / 1000000 < Rabs (z dir) -> (h - z orig) / z dir = t -> 0 < t ->
  plane_intersect h orig dir = Some (t, 0%N, mkVector2f 0 0).
Proof.
  intros Hz Ht Hpos. unfold plane_intersect.
  rewrite Rltb_true by exact Hz. rewrite Ht.
  rewrite Rltb_true by exact Hpos. reflexivity.
Qed.

Lemma plane_behind (h : R) (orig dir : Vector3f) :
  (h - z orig) / z dir <= 0 -> plane_intersect h orig dir = None.
Proof.
  intro Ht. unfold plane_intersect.
  destruct (Rltb (/ 1000000) (Rabs (z dir))); [| reflexivity].
  rewrite Rltb_false by exact Ht. reflexivity.
Qed.

Lemma plane_parallel (h : R) (orig dir : Vector3f) :
  z dir = 0 -> plane_intersect h orig dir = None.
Proof.
  intro Hz. unfold plane_intersect. rewrite Hz, Rabs_R0.
  rewrite Rltb_false; [reflexivity |].
  apply Rlt_le, Rinv_0_lt_compat. lra.
Qed.

Ltac vcalc :=
  unfold white, upward, downward;
  unfold reflect, normalize, vadd, vsub, vscale, scalev, vneg, vdiv, vmul,
    dotProduct, splat;
  cbn [x y z];
  apply Vector3f_eq; lra.

(** ** The mirror: the [REFLECTION] case *)

Lemma Rabs_one : / 1000000 < Rabs 1.
Proof. rewrite Rabs_R1. lra. Qed.

Lemma Rabs_minus_one : / 1000000 < Rabs (-1).
Proof. unfold Rabs. destruct (Rcase_abs (-1)); lra. Qed.

Lemma mirror_trace_down :
  trace (mkVector3f 0 0 1) downward [mirror]
  = Some (mkPayload 1 0%N (mkVector2f 0 0) mirror).
Proof.
  unfold trace. rewrite trace_from_cons.
  rewrite (trace_step_nearer _ _ _ _ 1 0%N (mkVector2f 0 0)).
  - reflexivity.
  - apply plane_hit; cbn [z downward]; [exact Rabs_minus_one | lra | lra].
  - cbn [fst]. pose proof kInfinity_large. lra.
Qed.

Lemma mirror_trace_up :
  trace (mkVector3f 0 0 (- / 1024)) upward [mirror]
  = Some (mkPayload (/ 1024) 0%N (mkVector2f 0 0) mirror).
Proof.
  unfold trace. rewrite trace_from_cons.
  rewrite (trace_step_nearer _ _ _ _ (/ 1024) 0%N (mkVector2f 0 0)).
  - reflexivity.
  - apply plane_hit; cbn [z upward]; [exact Rabs_one | lra | lra].
  - cbn [fst]. pose proof kInfinity_large. lra.
Qed.

(** C8, as the spec words it, fails for [maxDepth = INT_MAX]: no depth
    exceeds it, and the reflective hit at depth [INT_MAX] asks for the
    nested call at [INT_MAX + 1], which no [int] holds.  Whatever bound is
    put on the nested calls, there is no answer. *)
Lemma castRay_int_max_no_answer :
  (INT_MAX >? maxDepth endless_scene)%Z = false
  /\ trace (mkVector3f 0 0 1) downward (get_objects endless_scene)
     = Some (mkPayload 1 0%N (mkVector2f 0 0) mirror)
  /\ succ_int INT_MAX = None
  /\ castRay (enough_fuel endless_scene INT_MAX) (mkVector3f 0 0 1) downward
       endless_scene INT_MAX = None
  /\ ~ (exists fuel c,
          castRay fuel (mkVector3f 0 0 1) downward endless_scene INT_MAX
          = Some c).
Proof.
  assert (H : forall fuel,
             castRay fuel (mkVector3f 0 0 1) downward endless_scene INT_MAX
             = None).
  { intros [| fuel]; [reflexivity |].
    cbn [castRay].
    change (maxDepth endless_scene) with INT_MAX.
    change (get_objects endless_scene) with [mirror].
    destruct (Z.gtb_spec INT_MAX INT_MAX) as [Hgt | _]; [lia |].
    rewrite mirror_trace_down. reflexivity. }
  split; [reflexivity |]. split; [exact mirror_trace_down |].
  split; [reflexivity |]. split; [apply H |].
  intros (fuel & c & E). rewrite H in E. discriminate E.
Qed.

(** In the [REFLECTION_AND_REFRACTION] case the origin moves off the
    surface to the side the new ray points to. *)
Lemma rayOrig_RR_side (scene : Scene) (hitPoint N newDir : Vector3f) :
  0 < epsilon scene -> dotProduct newDir N <> 0 ->
  0 < dotProduct (rayOrig_RR scene hitPoint N newDir -v hitPoint) newDir.
Proof.
  intros He Hd. unfold rayOrig_RR.
  destruct (Rltb (dotProduct newDir N) 0) eqn:Hc;
    [apply Rltb_spec in Hc | apply Rltb_nlt in Hc];
    unfold dotProduct, vadd, vsub, vscale in *; cbn [x y z] in *; nra.
Qed.

(** In the [REFLECTION] case it moves to the other side. *)
Lemma rayOrig_R_side (scene : Scene) (hitPoint N newDir : Vector3f) :
  0 < epsilon scene -> dotProduct newDir N <> 0 ->
  dotProduct (rayOrig_R scene hitPoint N newDir -v hitPoint) newDir < 0.
Proof.
  intros He Hd. unfold rayOrig_R.
  destruct (Rltb (dotProduct newDir N) 0) eqn:Hc;
    [apply Rltb_spec in Hc | apply Rltb_nlt in Hc];
    unfold dotProduct, vadd, vsub, vscale in *; cbn [x y z] in *; nra.
Qed.

Lemma mirror_rayOrig_R_up :
  rayOrig_R mirror_scene (mkVector3f 0 0 0) upward upward
  = mkVector3f 0 0 (- / 1024).
Proof.
  unfold rayOrig_R, dotProduct, upward. cbn [x y z].
  rewrite Rltb_false by lra.
  unfold vsub, vscale. cbn [x y z epsilon mirror_scene].
  apply Vector3f_eq; lra.
Qed.

Lemma mirror_rayOrig_R_down :
  rayOrig_R mirror_scene (mkVector3f 0 0 0) upward downward
  = mkVector3f 0 0 (/ 1024).
Proof.
  unfold rayOrig_R, dotProduct, upward, downward. cbn [x y z].
  rewrite Rltb_true by lra.
  unfold vadd, vscale. cbn [x y z epsilon mirror_scene].
  apply Vector3f_eq; lra.
Qed.

(** C2.  A ray falling straight onto the mirror [z = 0] is reflected
    upward.  The [REFLECTION] case starts the reflected ray below the
    mirror, where the [REFLECTION_AND_REFRACTION] rule starts it above; the
    reflected ray meets the mirror again from behind, the bounces use up the
    depth, and the pixel is black under a white sky. *)
Theorem mirror_reflection_origin :
  reflect downward upward = upward
  /\ rayOrig_R mirror_scene (mkVector3f 0 0 0) upward upward
     = mkVector3f 0 0 (- / 1024)
  /\ rayOrig_RR mirror_scene (mkVector3f 0 0 0) upward upward
     = mkVector3f 0 0 (/ 1024)
  /\ dotProduct
       (rayOrig_R mirror_scene (mkVector3f 0 0 0) upward upward
        -v mkVector3f 0 0 0) upward < 0
  /\ Shade (mkVector3f 0 0 1) downward mirror_scene 0 = mkVector3f 0 0 0.
Proof.
  split; [vcalc |]. split; [exact mirror_rayOrig_R_up |]. split.
  { unfold rayOrig_RR, dotProduct, upward. cbn [x y z].
    rewrite Rltb_false by lra.
    unfold vadd, vscale. cbn [x y z epsilon mirror_scene].
    apply Vector3f_eq; lra. }
  split.
  { rewrite mirror_rayOrig_R_up. unfold dotProduct, vsub, upward.
    cbn [x y z]. lra. }
  apply (castRay_Shade 3).
  rewrite (castRay_REFLECTION 2 _ _ mirror_scene 0
             (mkPayload 1 0%N (mkVector2f 0 0) mirror)
             (mkVector3f 0 0 0) upward (mkVector2f 0 0)
             upward (mkVector3f 0 0 (- / 1024)));
    [ | simpl; lia | exact mirror_trace_down | cbn [tNear]; vcalc
      | reflexivity | reflexivity | reflexivity | vcalc
      | exact mirror_rayOrig_R_up ].
  rewrite (castRay_REFLECTION 1 _ _ mirror_scene (0 + 1)
             (mkPayload (/ 1024) 0%N (mkVector2f 0 0) mirror)
             (mkVector3f 0 0 0) upward (mkVector2f 0 0)
             downward (mkVector3f 0 0 (/ 1024)));
    [ | simpl; lia | exact mirror_trace_up | cbn [tNear]; vcalc
      | reflexivity | reflexivity | reflexivity | vcalc
      | exact mirror_rayOrig_R_down ].
  rewrite castRay_black by (simpl; lia).
  f_equal. unfold vscale. cbn [x y z]. apply Vector3f_eq; ring.
Qed.

(** ** The hidden lamp: the [default] case *)

Lemma normalize_vertical (k : R) :
  0 < k -> normalize (mkVector3f 0 0 k) = upward.
Proof.
  intro Hk. unfold normalize, length, vdiv, upward. cbn [x y z].
  replace (0 * 0 + 0 * 0 + k * k) with (k * k) by ring.
  rewrite sqrt_square by lra.
  apply Vector3f_eq; field; lra.
Qed.

Lemma powf_one (e : R) : powf 1 e = 1.
Proof.
  unfold powf. destruct (Req_dec_T 1 0) as [H | _]; [lra |].
  unfold Rpower. rewrite ln_1, Rmult_0_r. apply exp_0.
Qed.

(** What one iteration of the loop does for a light that is in shadow:
    the diffuse sum receives zero, the specular sum receives the light's
    full term. *)
Lemma light_step_inShadow (scene : Scene) (obj : Object)
  (hitPoint N dir : Vector3f) (acc : Vector3f * Vector3f) (light : Light) :
  light_inShadow scene hitPoint N dir light = true ->
  light_step scene obj hitPoint N dir acc light
  = (fst acc +v splat 0,
     snd acc +v
     powf (fmax 0 (- dotProduct
                       (reflect (vneg (lightDirOf hitPoint light)) N) dir))
          (specularExponent obj) s* intensity light).
Proof.
  unfold light_inShadow, light_step, lightDirOf. intro H. rewrite H.
  reflexivity.
Qed.

Lemma shadow_trace_primary :
  trace (mkVector3f 0 0 1) downward [ground; ceiling]
  = Some (mkPayload 1 0%N (mkVector2f 0 0) ground).
Proof.
  unfold trace. rewrite !trace_from_cons.
  rewrite (trace_step_nearer _ _ ground (kInfinity, None) 1 0%N
             (mkVector2f 0 0)).
  - rewrite trace_step_none; [reflexivity |].
    apply plane_behind. cbn [z downward]. lra.
  - apply plane_hit; cbn [z downward]; [exact Rabs_minus_one | lra | lra].
  - cbn [fst]. pose proof kInfinity_large. lra.
Qed.

Lemma shadow_trace_lamp :
  trace (mkVector3f 0 0 (/ 1024)) upward [ground; ceiling]
  = Some (mkPayload (2047 / 1024) 0%N (mkVector2f 0 0) ceiling).
Proof.
  unfold trace. rewrite !trace_from_cons.
  rewrite (trace_step_none _ _ ground).
  - rewrite (trace_step_nearer _ _ _ _ (2047 / 1024) 0%N (mkVector2f 0 0));
      [reflexivity | | cbn [fst]; pose proof kInfinity_large; lra].
    apply plane_hit; cbn [z upward]; [exact Rabs_one | lra | lra].
  - apply plane_behind. cbn [z upward]. lra.
Qed.

Lemma shadow_lamp_inShadow :
  light_inShadow shadow_scene (mkVector3f 0 0 0) upward downward lamp = true.
Proof.
  unfold light_inShadow.
  replace (position lamp -v mkVector3f 0 0 0) with (mkVector3f 0 0 5)
    by (unfold lamp; cbn [position]; vcalc).
  rewrite normalize_vertical by lra.
  replace (shadowPointOrig shadow_scene (mkVector3f 0 0 0) upward downward)
    with (mkVector3f 0 0 (/ 1024)).
  - cbn [get_objects shadow_scene]. rewrite shadow_trace_lamp.
    unfold inShadow, dotProduct. cbn [tNear x y z].
    apply Rltb_true. lra.
  - unfold shadowPointOrig, dotProduct, upward, downward. cbn [x y z].
    rewrite Rltb_true by lra.
    unfold vadd, vscale. cbn [x y z epsilon shadow_scene].
    apply Vector3f_eq; lra.
Qed.

Lemma shadow_light_step :
  light_step shadow_scene ground (mkVector3f 0 0 0) upward downward
    (splat 0, splat 0) lamp
  = (splat 0, white).
Proof.
  rewrite light_step_inShadow by exact shadow_lamp_inShadow.
  unfold lightDirOf.
  replace (position lamp -v mkVector3f 0 0 0) with (mkVector3f 0 0 5)
    by (unfold lamp; cbn [position]; vcalc).
  rewrite normalize_vertical by lra.
  replace (- dotProduct (reflect (vneg upward) upward) downward) with 1
    by (unfold reflect, dotProduct, vneg, vsub, scalev, upward, downward;
        cbn [x y z]; lra).
  unfold fmax. rewrite Rltb_true by lra. rewrite powf_one.
  cbn [fst snd]. f_equal; unfold lamp; cbn [intensity]; vcalc.
Qed.

(** C1.  The lamp is hidden from the hit point by the plane [z = 2]: the
    shadow ray meets that plane at a distance whose square is below the
    squared distance of the lamp.  The diffuse sum receives nothing from
    the lamp, the specular sum receives the lamp's whole intensity, and the
    returned colour is [Ks] times that intensity instead of black. *)
Theorem hidden_lamp_specular :
  light_inShadow shadow_scene (mkVector3f 0 0 0) upward downward lamp = true
  /\ light_step shadow_scene ground (mkVector3f 0 0 0) upward downward
       (splat 0, splat 0) lamp
     = (splat 0, intensity lamp)
  /\ Shade (mkVector3f 0 0 1) downward shadow_scene 0
     = mkVector3f (/ 2) (/ 2) (/ 2).
Proof.
  split; [exact shadow_lamp_inShadow |].
  split; [exact shadow_light_step |].
  apply (castRay_Shade 1).
  rewrite (castRay_default 0 _ _ shadow_scene 0
             (mkPayload 1 0%N (mkVector2f 0 0) ground)
             (mkVector3f 0 0 0) upward (mkVector2f 0 0));
    [ | simpl; lia | exact shadow_trace_primary | cbn [tNear]; vcalc
      | reflexivity | reflexivity ].
  f_equal. unfold phong. cbn [get_lights shadow_scene fold_left hit_obj].
  rewrite shadow_light_step. cbn [fst snd].
  unfold ground, plane. cbn [evalDiffuseColor Kd Ks]. vcalc.
Qed.

(** ** Lengths *)

Lemma dotProduct_self_nonneg (a : Vector3f) : 0 <= dotProduct a a.
Proof. unfold dotProduct. nra. Qed.

Lemma length_sqr (a : Vector3f) : length a * length a = dotProduct a a.
Proof.
  unfold length. apply sqrt_sqrt. apply (dotProduct_self_nonneg a).
Qed.

Lemma length_nonneg (a : Vector3f) : 0 <= length a.
Proof. unfold length. apply sqrt_pos. Qed.

Lemma length_one (a : Vector3f) : length a = 1 <-> dotProduct a a = 1.
Proof.
  split; intro H.
  - rewrite <- length_sqr, H. ring.
  - unfold length. change (sqrt (dotProduct a a) = 1). rewrite H.
    apply sqrt_1.
Qed.

Lemma length_zero (a : Vector3f) : length a = 0 <-> a = splat 0.
Proof.
  split; intro H.
  - pose proof (length_sqr a) as Hs. rewrite H in Hs.
    unfold dotProduct in Hs. destruct a as [a1 a2 a3]. cbn [x y z] in Hs.
    unfold splat. apply Vector3f_eq; nra.
  - subst a. unfold length, splat. cbn [x y z].
    replace (0 * 0 + 0 * 0 + 0 * 0) with 0 by ring. apply sqrt_0.
Qed.

(** [normalize] yields a unit vector whenever its divisor is not zero. *)
Lemma normalize_unit (a : Vector3f) :
  length a <> 0 -> length (normalize a) = 1.
Proof.
  intro H. apply length_one.
  pose proof (length_sqr a) as Hs.
  unfold normalize, vdiv, dotProduct in *. cbn [x y z].
  transitivity ((x a * x a + y a * y a + z a * z a) / (length a * length a)).
  - field. exact H.
  - rewrite Hs. field. rewrite <- Hs. nra.
Qed.

(** [reflect] keeps the length of a unit vector about a unit normal. *)
Lemma reflect_unit (I N : Vector3f) :
  length I = 1 -> length N = 1 -> length (reflect I N) = 1.
Proof.
  intros HI HN. apply length_one in HI. apply length_one in HN.
  apply length_one.
  unfold reflect, vsub, scalev, dotProduct in *. cbn [x y z] in *.
  set (d := x I * x N + y I * y N + z I * z N).
  transitivity ((x I * x I + y I * y I + z I * z I)
                + 4 * d * d * ((x N * x N + y N * y N + z N * z N) - 1)).
  - unfold d. ring.
  - rewrite HI, HN. ring.
Qed.

(** Dividing the zero vector by its length leaves the zero vector in [R],
    whatever the quotient by zero is taken to be. *)
Lemma normalize_zero : normalize (splat 0) = splat 0.
Proof.
  unfold normalize, vdiv, splat. cbn [x y z]. unfold Rdiv.
  apply Vector3f_eq; ring.
Qed.

(** ** The refracting plane: total internal reflection *)

Lemma clamp_inside (lo hi v : R) : lo <= v <= hi -> clamp lo hi v = v.
Proof.
  intros [Hlo Hhi]. unfold clamp, fmin, fmax.
  destruct (Rltb v hi) eqn:E1.
  - destruct (Rltb lo v) eqn:E2; [reflexivity |].
    apply Rltb_nlt in E2. lra.
  - apply Rltb_nlt in E1. assert (v = hi) by lra. subst v.
    destruct (Rltb lo hi) eqn:E2; [reflexivity |].
    apply Rltb_nlt in E2. lra.
Qed.

Lemma glass_cosi :
  Rabs (clamp (-1) 1 (dotProduct slanted upward)) = 4 / 5.
Proof.
  replace (dotProduct slanted upward) with (- (4 / 5))
    by (unfold dotProduct, slanted, upward; cbn [x y z]; lra).
  rewrite clamp_inside by lra.
  rewrite Rabs_Ropp. apply Rabs_pos_eq. lra.
Qed.

Lemma glass_refract_t : refract_t slanted upward (ior glass) = - (11 / 25).
Proof.
  unfold refract_t. rewrite glass_cosi.
  unfold glass, plane. cbn [ior]. field.
Qed.

Lemma glass_refract : refract slanted upward (ior glass) = splat 0.
Proof.
  pose proof glass_refract_t as Ht. unfold refract_t in Ht.
  unfold refract. rewrite Ht. rewrite Rltb_true by lra. reflexivity.
Qed.

Lemma glass_fresnel : fresnel slanted upward (ior glass) = 3133 / 28125.
Proof.
  unfold fresnel. rewrite glass_cosi.
  unfold glass, plane. cbn [ior]. field.
Qed.

Lemma glass_reflect : normalize (reflect slanted upward) = slanted_up.
Proof.
  replace (reflect slanted upward) with slanted_up
    by (unfold reflect, slanted, slanted_up, upward, vsub, scalev, dotProduct;
        cbn [x y z]; apply Vector3f_eq; lra).
  unfold normalize, length, vdiv, slanted_up. cbn [x y z].
  replace (3 / 5 * (3 / 5) + 0 * 0 + 4 / 5 * (4 / 5)) with 1 by field.
  rewrite sqrt_1. apply Vector3f_eq; field.
Qed.

Lemma Rabs_slanted : / 1000000 < Rabs (- (4 / 5)).
Proof. rewrite Rabs_Ropp, Rabs_pos_eq; lra. Qed.

Lemma glass_trace_primary :
  trace (mkVector3f 0 0 1) slanted [glass]
  = Some (mkPayload (5 / 4) 0%N (mkVector2f 0 0) glass).
Proof.
  unfold trace. rewrite trace_from_cons.
  rewrite (trace_step_nearer _ _ _ _ (5 / 4) 0%N (mkVector2f 0 0)).
  - reflexivity.
  - apply plane_hit; cbn [z slanted]; [exact Rabs_slanted | field | lra].
  - cbn [fst]. pose proof kInfinity_large. lra.
Qed.

Lemma glass_trace_reflected :
  trace (mkVector3f (3 / 4) 0 (/ 1024)) slanted_up [glass] = None.
Proof.
  unfold trace. rewrite trace_from_cons, trace_step_none; [reflexivity |].
  apply plane_behind. cbn [z slanted_up]. lra.
Qed.

Lemma glass_trace_refracted :
  trace (mkVector3f (3 / 4) 0 (/ 1024)) (splat 0) [glass] = None.
Proof.
  unfold trace. rewrite trace_from_cons, trace_step_none; [reflexivity |].
  apply plane_parallel. reflexivity.
Qed.

Lemma glass_rayOrig_reflected :
  rayOrig_RR glass_scene (mkVector3f (3 / 4) 0 0) upward slanted_up
  = mkVector3f (3 / 4) 0 (/ 1024).
Proof.
  unfold rayOrig_RR, dotProduct, upward, slanted_up. cbn [x y z].
  rewrite Rltb_false by lra.
  unfold vadd, vscale. cbn [x y z epsilon glass_scene].
  apply Vector3f_eq; lra.
Qed.

Lemma glass_rayOrig_refracted :
  rayOrig_RR glass_scene (mkVector3f (3 / 4) 0 0) upward (splat 0)
  = mkVector3f (3 / 4) 0 (/ 1024).
Proof.
  unfold rayOrig_RR, dotProduct, upward, splat. cbn [x y z].
  rewrite Rltb_false by lra.
  unfold vadd, vscale. cbn [x y z epsilon glass_scene].
  apply Vector3f_eq; lra.
Qed.

Lemma glass_Shade : Shade (mkVector3f 0 0 1) slanted glass_scene 0 = white.
Proof.
  apply (castRay_Shade 2).
  rewrite (castRay_REFLECTION_AND_REFRACTION 1 _ _ glass_scene 0
             (mkPayload (5 / 4) 0%N (mkVector2f 0 0) glass)
             (mkVector3f (3 / 4) 0 0) upward (mkVector2f 0 0)
             slanted_up (mkVector3f (3 / 4) 0 (/ 1024))
             (splat 0) (mkVector3f (3 / 4) 0 (/ 1024)));
    [ | simpl; lia | exact glass_trace_primary
      | cbn [tNear]; unfold slanted, vadd, vscale; cbn [x y z];
        apply Vector3f_eq; lra
      | reflexivity | reflexivity | reflexivity | exact glass_reflect
      | cbn [hit_obj]; rewrite glass_refract; exact normalize_zero
      | exact glass_rayOrig_reflected | exact glass_rayOrig_refracted ].
  rewrite castRay_S; [ | simpl; lia | exact glass_trace_reflected ].
  rewrite castRay_S; [ | simpl; lia | exact glass_trace_refracted ].
  cbn zeta. f_equal. cbn [backgroundColor glass_scene].
  unfold white, splat, vadd, vscale. cbn [x y z]. apply Vector3f_eq; ring.
Qed.

(** C3.  The ray [slanted] meets the refracting plane beyond the critical
    angle: the discriminant of [refract] is negative and [refract] returns
    the zero vector.  [castRay] then divides that vector by its length,
    which is zero, and shades along the result.  The colour it blends as
    the refraction colour is the white background, not zero, and the pixel
    is white instead of the reflection colour scaled by [kr]. *)
Theorem total_internal_reflection_colour :
  refract_t slanted upward (ior glass) < 0
  /\ refract slanted upward (ior glass) = splat 0
  /\ length (refract slanted upward (ior glass)) = 0
  /\ castRay 1 (mkVector3f (3 / 4) 0 (/ 1024))
       (normalize (refract slanted upward (ior glass))) glass_scene 1
     = Some white
  /\ Shade (mkVector3f 0 0 1) slanted glass_scene 0 = white
  /\ Shade (mkVector3f 0 0 1) slanted glass_scene 0
     <> white *s fresnel slanted upward (ior glass).
Proof.
  split; [rewrite glass_refract_t; lra |].
  split; [exact glass_refract |].
  split; [apply length_zero; exact glass_refract |].
  split.
  { rewrite glass_refract, normalize_zero.
    apply castRay_S; [simpl; lia | exact glass_trace_refracted]. }
  split; [exact glass_Shade |].
  rewrite glass_Shade, glass_fresnel.
  unfold white, splat, vscale. cbn [x y z]. intro E.
  injection E as E _ _. lra.
Qed.

(** C7.  At the hit of [slanted] on the refracting plane both the
    incoming direction and the normal are of unit length, and the
    refraction direction that [castRay] hands to the nested call, the
    normalization of the zero vector, is not of unit length. *)
Theorem refraction_direction_not_unit :
  length slanted = 1
  /\ length upward = 1
  /\ trace (mkVector3f 0 0 1) slanted (get_objects glass_scene)
     = Some (mkPayload (5 / 4) 0%N (mkVector2f 0 0) glass)
  /\ materialType glass = REFLECTION_AND_REFRACTION
  /\ length (normalize (refract slanted upward (ior glass))) <> 1.
Proof.
  split.
  { apply length_one. unfold dotProduct, slanted. cbn [x y z]. field. }
  split.
  { apply length_one. unfold dotProduct, upward. cbn [x y z]. ring. }
  split; [exact glass_trace_primary |]. split; [reflexivity |].
  rewrite glass_refract, normalize_zero.
  replace (length (splat 0)) with 0; [lra |].
  symmetry. apply length_zero. reflexivity.
Qed.

(** ** The frame drivers: the bytes of a pixel, and a file that cannot be
    opened *)

Lemma clamp_unit_interval (v : R) : 0 <= clamp 0 1 v <= 1.
Proof.
  unfold clamp, fmax, fmin.
  destruct (Rltb v 1) eqn:E1;
    [apply Rltb_spec in E1 | apply Rltb_nlt in E1].
  - destruct (Rltb 0 v) eqn:E2;
      [apply Rltb_spec in E2 | apply Rltb_nlt in E2]; lra.
  - destruct (Rltb 0 1) eqn:E2;
      [apply Rltb_spec in E2 | apply Rltb_nlt in E2]; lra.
Qed.

(** The spec's reading of [clamp(color, 0, 1)]. *)
Lemma clamp_cases (v : R) :
  clamp 0 1 v = if Rltb v 0 then 0 else if Rltb 1 v then 1 else v.
Proof.
  unfold clamp, fmax, fmin.
  destruct (Rltb v 1) eqn:E1, (Rltb v 0) eqn:E2, (Rltb 1 v) eqn:E3;
    repeat match goal with
           | H : Rltb _ _ = true |- _ => apply Rltb_spec in H
           | H : Rltb _ _ = false |- _ => apply Rltb_nlt in H
           end;
    try lra;
    match goal with
    | |- (if Rltb ?a ?b then _ else _) = _ =>
        destruct (Rltb a b) eqn:E4;
        [apply Rltb_spec in E4 | apply Rltb_nlt in E4]; lra
    end.
Qed.

(** In [Renderer.hpp] every byte of a pixel is [255 * clamp(0, 1, c)]
    truncated, a value between 0 and 255. *)
Lemma Stdio_byte (v : R) :
  to_byte (255 * clamp 0 1 v) = Zfloor (255 * clamp 0 1 v)
  /\ (0 <= to_byte (255 * clamp 0 1 v) <= 255)%Z.
Proof.
  pose proof (clamp_unit_interval v) as Hc.
  set (c := clamp 0 1 v) in *.
  assert (H0 : (0 <= Zfloor (255 * c))%Z).
  { apply Zfloor_lub. simpl. lra. }
  assert (H1 : (Zfloor (255 * c) <= 255)%Z).
  { apply le_IZR. pose proof (Zfloor_bound (255 * c)) as [Hb _]. lra. }
  unfold to_byte, Ztrunc. rewrite Rltb_false by lra.
  rewrite Z.mod_small by lia. split; [reflexivity | lia].
Qed.

Lemma fmax_Rmax (a b : R) : fmax a b = Rmax a b.
Proof.
  unfold fmax, Rmax.
  destruct (Rltb a b) eqn:E; [apply Rltb_spec in E | apply Rltb_nlt in E];
    destruct (Rle_dec a b); lra.
Qed.

Lemma fmin_Rmin (a b : R) : fmin a b = Rmin a b.
Proof.
  unfold fmin, Rmin.
  destruct (Rltb b a) eqn:E; [apply Rltb_spec in E | apply Rltb_nlt in E];
    destruct (Rle_dec a b); lra.
Qed.

(** [Renderer.hpp] writes the bytes the spec describes, for every colour. *)
Lemma Stdio_color_spec (c : Vector3f) :
  Stdio.color c = map channel_byte_spec [x c; y c; z c].
Proof.
  assert (H : forall v, to_byte (255 * clamp 0 1 v) = channel_byte_spec v).
  { intro v. destruct (Stdio_byte v) as [Hf _]. rewrite Hf.
    assert (Hcl : Rmax 0 (Rmin 1 v) = clamp 0 1 v).
    { unfold clamp. rewrite fmax_Rmax, fmin_Rmin. reflexivity. }
    pose proof (clamp_unit_interval v) as Hc.
    unfold channel_byte_spec, Ztrunc. rewrite Hcl.
    rewrite Rltb_false by lra. f_equal. ring. }
  unfold Stdio.color. rewrite !H. reflexivity.
Qed.

Lemma to_byte_floor (v : R) (n : Z) :
  (0 <= n < 256)%Z -> IZR n <= v < IZR n + 1 -> to_byte v = n.
Proof.
  intros Hn Hv. unfold to_byte, Ztrunc.
  assert (0 <= IZR n) by (apply IZR_le; lia).
  rewrite Rltb_false by lra.
  rewrite (Zfloor_eq n v Hv). apply Z.mod_small. exact Hn.
Qed.

Lemma to_byte_wraps (v : R) (n : Z) :
  (0 <= n)%Z -> IZR n <= v < IZR n + 1 -> to_byte v = (n mod 256)%Z.
Proof.
  intros Hn Hv. unfold to_byte, Ztrunc.
  assert (0 <= IZR n) by (apply IZR_le; lia).
  rewrite Rltb_false by lra.
  rewrite (Zfloor_eq n v Hv). reflexivity.
Qed.

Lemma Shade_no_objects (orig dir : Vector3f) (scene : Scene) :
  get_objects scene = [] -> (0 <= maxDepth scene)%Z ->
  Shade orig dir scene 0 = backgroundColor scene.
Proof.
  intros Ho Hd. apply (castRay_Shade 1). apply castRay_S; [exact Hd |].
  rewrite Ho. reflexivity.
Qed.

Lemma Stdio_fput_null (A : Type) (f : A -> list Z) (l : list A) :
  fold_left (fun fp c => Stdio.fput fp (f c)) l None = None.
Proof. induction l as [| a l IH]; [reflexivity | exact IH]. Qed.

Lemma Stream_Render_throws (scene : Scene) :
  Stream.frame_buffer scene <> [] ->
  Stream.Render false scene = Throws Stream.cannot_open.
Proof.
  intro H. unfold Stream.Render.
  destruct (Stream.frame_buffer scene) as [| row0 rows]; [contradiction |].
  reflexivity.
Qed.

(** C9.  One pixel whose colour is [(2, 1/2, 0)].  The bytes the spec asks for
    are 255, 127, 0, and [Renderer.hpp] writes them.  The second driver
    scales by 255 without clamping and converts [510] to a character: its
    first byte is 254. *)
Theorem bright_pixel_bytes :
  map channel_byte_spec [2; / 2; 0] = [255; 127; 0]%Z
  /\ Stdio.Render true bright_scene
     = Written ([80; 54; 10; 49; 32; 49; 10; 50; 53; 53; 10]
                ++ [255; 127; 0])%Z
  /\ Stream.Render true bright_scene
     = Written ([80; 54; 10; 49; 32; 49; 10; 50; 53; 53; 10]
                ++ [254; 127; 0])%Z.
Proof.
  assert (Hbg : forall dir, Shade (splat 0) dir bright_scene 0
                            = mkVector3f 2 (/ 2) 0).
  { intro dir. apply Shade_no_objects; [reflexivity | simpl; lia]. }
  assert (Hb : Stdio.color (mkVector3f 2 (/ 2) 0) = [255; 127; 0]%Z).
  { unfold Stdio.color. cbn [x y z].
    rewrite (to_byte_floor (255 * clamp 0 1 2) 255);
      [ | lia | rewrite clamp_cases, Rltb_false, Rltb_true by lra; lra ].
    rewrite (to_byte_floor (255 * clamp 0 1 (/ 2)) 127);
      [ | lia | rewrite clamp_inside by lra; lra ].
    rewrite (to_byte_floor (255 * clamp 0 1 0) 0);
      [ | lia | rewrite clamp_inside by lra; lra ].
    reflexivity. }
  split; [| split].
  - rewrite <- Hb. symmetry.
    exact (Stdio_color_spec (mkVector3f 2 (/ 2) 0)).
  - unfold Stdio.Render, Stdio.framebuffer.
    change (range (height bright_scene)) with [0%Z].
    change (range (width bright_scene)) with [0%Z].
    cbn [flat_map map app fold_left]. rewrite Hbg, Hb.
    reflexivity.
  - unfold Stream.Render, Stream.frame_buffer.
    change (range (height bright_scene)) with [0%Z].
    change (range (width bright_scene)) with [0%Z].
    cbn [map]. rewrite Hbg.
    cbn [Stream.write_ppm_header Stream.write_ppm_data List.length].
    unfold Stream.write_ppm_header, Stream.write_ppm_data.
    cbn [rev app flat_map]. unfold Stream.pixel, scalev. cbn [x y z].
    rewrite (to_byte_wraps (2 * 255) 510); [ | lia | lra ].
    rewrite (to_byte_floor (/ 2 * 255) 127); [ | lia | lra ].
    rewrite (to_byte_floor (0 * 255) 0); [ | lia | lra ].
    reflexivity.
Qed.

(** C10.  When the output file cannot be opened, [Renderer.hpp] hands the
    null pointer of [fopen] to [fprintf], [fwrite] and [fclose]: no error
    reaches the caller.  The second driver throws. *)
Theorem unopened_file :
  (forall scene, Stdio.Render false scene = Undefined)
  /\ Stream.Render false bright_scene = Throws Stream.cannot_open.
Proof.
  split.
  - intro scene. unfold Stdio.Render, Stdio.fopen, Stdio.fput at 2.
    rewrite Stdio_fput_null. reflexivity.
  - apply Stream_Render_throws. unfold Stream.frame_buffer.
    change (range (height bright_scene)) with [0%Z].
    discriminate.
Qed.

(** * Further properties of the code *)

(** ** [Vector.hpp] *)

Ltac vdestruct :=
  repeat match goal with
         | v : Vector3f |- _ => destruct v as [? ? ?]
         end;
  unfold lerp, crossProduct, reflect, vadd, vsub, vscale, scalev, vneg, vdiv,
    vmul, dotProduct, splat in *;
  cbn [x y z] in *.

(** [crossProduct] is orthogonal to both of its arguments and vanishes on
    equal arguments. *)
Theorem crossProduct_orthogonal (a b : Vector3f) :
  dotProduct (crossProduct a b) a = 0
  /\ dotProduct (crossProduct a b) b = 0
  /\ crossProduct a a = splat 0.
Proof.
  vdestruct. split; [ring | split; [ring |]]. apply Vector3f_eq; ring.
Qed.

Lemma lagrange_identity (a b : Vector3f) :
  dotProduct a a * dotProduct b b
  = dotProduct a b * dotProduct a b
    + dotProduct (crossProduct a b) (crossProduct a b).
Proof. vdestruct. ring. Qed.

Lemma dotProduct_sqr_le (a b : Vector3f) :
  dotProduct a b * dotProduct a b <= dotProduct a a * dotProduct b b.
Proof.
  rewrite lagrange_identity.
  pose proof (dotProduct_self_nonneg (crossProduct a b)). lra.
Qed.

Lemma dotProduct_abs_le (a b : Vector3f) :
  Rabs (dotProduct a b) <= length a * length b.
Proof.
  pose proof (dotProduct_sqr_le a b) as H.
  pose proof (length_nonneg a) as Ha. pose proof (length_nonneg b) as Hb.
  rewrite <- (length_sqr a), <- (length_sqr b) in H.
  rewrite <- (Rabs_pos_eq (length a * length b)) by nra.
  apply Rsqr_le_abs_0. unfold Rsqr. nra.
Qed.

(** The Cauchy-Schwarz inequality for [dotProduct] and [length]. *)
Theorem dotProduct_le_length (a b : Vector3f) :
  Rabs (dotProduct a b) <= length a * length b.
Proof. exact (dotProduct_abs_le a b). Qed.

(** The triangle inequality for [length] and [operator+]. *)
Theorem length_triangle (a b : Vector3f) :
  length (a +v b) <= length a + length b.
Proof.
  pose proof (dotProduct_abs_le a b) as Hcs.
  pose proof (length_nonneg a) as Ha. pose proof (length_nonneg b) as Hb.
  pose proof (length_nonneg (a +v b)) as Hab.
  pose proof (length_sqr a) as Sa. pose proof (length_sqr b) as Sb.
  pose proof (length_sqr (a +v b)) as Sab.
  assert (Hd : dotProduct (a +v b) (a +v b)
               = dotProduct a a + 2 * dotProduct a b + dotProduct b b).
  { vdestruct. ring. }
  pose proof (Rle_abs (dotProduct a b)) as Habs.
  apply Rsqr_incr_0_var; [| lra]. unfold Rsqr. nra.
Qed.

Lemma length_vscale_abs (a : Vector3f) (r : R) :
  length (a *s r) = Rabs r * length a.
Proof.
  unfold length, vscale. cbn [x y z].
  replace (x a * r * (x a * r) + y a * r * (y a * r) + z a * r * (z a * r))
    with (Rsqr r * (x a * x a + y a * y a + z a * z a))
    by (unfold Rsqr; ring).
  rewrite sqrt_mult_alt by apply Rle_0_sqr.
  rewrite sqrt_Rsqr_abs. reflexivity.
Qed.

(** Scaling a vector scales its length by the absolute value of the
    factor, for both orders of the operands of [operator*]. *)
Theorem length_vscale (a : Vector3f) (r : R) :
  length (a *s r) = Rabs r * length a
  /\ length (r s* a) = Rabs r * length a.
Proof. split; exact (length_vscale_abs a r). Qed.

(** [normalize] does not see a positive scale factor; in particular it
    leaves its own results unchanged. *)
Theorem normalize_scale_invariant (a : Vector3f) (k : R) :
  0 < k -> a <> splat 0 ->
  normalize (a *s k) = normalize a
  /\ normalize (normalize a) = normalize a.
Proof.
  intros Hk Ha.
  assert (Hl : length a <> 0).
  { intro H. apply Ha. apply length_zero. exact H. }
  pose proof (length_nonneg a) as Hp.
  split.
  - unfold normalize. rewrite length_vscale_abs, Rabs_pos_eq by lra.
    unfold vdiv, vscale. cbn [x y z].
    apply Vector3f_eq; field; lra.
  - pose proof (normalize_unit a Hl) as Hu.
    unfold normalize at 1. rewrite Hu.
    unfold vdiv. destruct (normalize a) as [n1 n2 n3]. cbn [x y z].
    apply Vector3f_eq; field.
Qed.

Lemma normalize_scale_invariant_witness :
  normalize (mkVector3f 0 0 5 *s 2) = normalize (mkVector3f 0 0 5)
  /\ normalize (normalize (mkVector3f 0 0 5)) = normalize (mkVector3f 0 0 5).
Proof.
  apply (normalize_scale_invariant (mkVector3f 0 0 5) 2).
  - lra.
  - unfold splat. intro E. injection E as E. lra.
Defined.

(** [lerp] starts at [a], ends at [b] and is the affine blend between. *)
Theorem lerp_affine (a b : Vector3f) (t : R) :
  lerp a b 0 = a /\ lerp a b 1 = b
  /\ lerp a b t = a *s (1 - t) +v b *s t.
Proof.
  vdestruct. repeat split; apply Vector3f_eq; ring.
Qed.

(** ** [reflect] *)

Lemma reflect_dot_any (I N : Vector3f) :
  dotProduct (reflect I N) N
  = dotProduct I N - 2 * dotProduct I N * dotProduct N N.
Proof. vdestruct. ring. Qed.

Lemma reflect_sqr_any (I N : Vector3f) :
  dotProduct (reflect I N) (reflect I N)
  = dotProduct I I
    + 4 * dotProduct I N * dotProduct I N * (dotProduct N N - 1).
Proof. vdestruct. ring. Qed.

Lemma reflect_twice_any (I N : Vector3f) :
  reflect (reflect I N) N
  = I +v (4 * dotProduct I N * (dotProduct N N - 1)) s* N.
Proof. vdestruct. apply Vector3f_eq; ring. Qed.

(** About a unit normal, [reflect] flips the normal component, keeps the
    length and undoes itself. *)
Theorem reflect_mirror (I N : Vector3f) :
  length N = 1 ->
  dotProduct (reflect I N) N = - dotProduct I N
  /\ length (reflect I N) = length I
  /\ reflect (reflect I N) N = I.
Proof.
  intro HN. apply length_one in HN. split; [| split].
  - rewrite reflect_dot_any, HN. ring.
  - unfold length at 1 2.
    change (sqrt (dotProduct (reflect I N) (reflect I N))
            = sqrt (dotProduct I I)).
    rewrite reflect_sqr_any, HN. f_equal. ring.
  - rewrite reflect_twice_any, HN.
    destruct I as [i1 i2 i3]. unfold vadd, scalev. cbn [x y z].
    apply Vector3f_eq; ring.
Qed.

Lemma reflect_mirror_witness :
  dotProduct (reflect slanted upward) upward = - dotProduct slanted upward
  /\ length (reflect slanted upward) = length slanted
  /\ reflect (reflect slanted upward) upward = slanted.
Proof.
  apply (reflect_mirror slanted upward).
  apply length_one. unfold dotProduct, upward. cbn [x y z]. ring.
Defined.

(** ** [fresnel] and [refract] *)

Lemma clamp_range (lo hi v : R) : lo <= hi -> lo <= clamp lo hi v <= hi.
Proof.
  intro H. unfold clamp, fmax, fmin.
  destruct (Rltb v hi) eqn:E1;
    [apply Rltb_spec in E1 | apply Rltb_nlt in E1].
  - destruct (Rltb lo v) eqn:E2;
      [apply Rltb_spec in E2 | apply Rltb_nlt in E2]; lra.
  - destruct (Rltb lo hi) eqn:E2;
      [apply Rltb_spec in E2 | apply Rltb_nlt in E2]; lra.
Qed.

Lemma clamp_below (lo hi v : R) : lo <= hi -> v <= lo -> clamp lo hi v = lo.
Proof.
  intros H Hv. unfold clamp, fmax, fmin.
  destruct (Rltb v hi) eqn:E1;
    [apply Rltb_spec in E1 | apply Rltb_nlt in E1].
  - rewrite Rltb_false by exact Hv. reflexivity.
  - destruct (Rltb lo hi) eqn:E2;
      [apply Rltb_spec in E2 | apply Rltb_nlt in E2]; lra.
Qed.

Lemma clamp_above (lo hi v : R) : lo <= hi -> hi <= v -> clamp lo hi v = hi.
Proof.
  intros H Hv. unfold clamp, fmax, fmin.
  rewrite (Rltb_false v hi) by exact Hv.
  destruct (Rltb lo hi) eqn:E2;
    [apply Rltb_spec in E2 | apply Rltb_nlt in E2]; lra.
Qed.

Lemma clamp_opp (v : R) : clamp (-1) 1 (- v) = - clamp (-1) 1 v.
Proof.
  destruct (Rle_dec v (-1)) as [H1 | H1].
  - rewrite (clamp_below (-1) 1 v), (clamp_above (-1) 1 (- v)) by lra. lra.
  - destruct (Rle_dec 1 v) as [H2 | H2].
    + rewrite (clamp_above (-1) 1 v), (clamp_below (-1) 1 (- v)) by lra. lra.
    + rewrite !clamp_inside by lra. reflexivity.
Qed.

Lemma cosi_range (v : R) : 0 <= Rabs (clamp (-1) 1 v) <= 1.
Proof.
  pose proof (clamp_range (-1) 1 v ltac:(lra)) as H.
  split; [apply Rabs_pos |]. apply Rabs_le. lra.
Qed.

Lemma R0_range (ior : R) :
  0 <= ior -> 0 <= ((1 - ior) / (1 + ior)) ^ 2 <= 1.
Proof.
  intro H. set (q := (1 - ior) / (1 + ior)).
  assert (Hq : q * (1 + ior) = 1 - ior) by (unfold q; field; lra).
  assert (-1 <= q <= 1) by (split; nra).
  simpl. nra.
Qed.

Lemma pow5_range (c : R) : 0 <= c <= 1 -> 0 <= (1 - c) ^ 5 <= 1.
Proof.
  intro H. split; [apply pow_le; lra |].
  rewrite <- (pow1 5). apply pow_incr. lra.
Qed.

(** For a non-negative index of refraction the Fresnel term is a weight:
    it lies between the reflectance at normal incidence and [1]. *)
Theorem fresnel_range (I N : Vector3f) (ior : R) :
  0 <= ior ->
  0 <= ((1 - ior) / (1 + ior)) ^ 2 <= fresnel I N ior
  /\ fresnel I N ior <= 1.
Proof.
  intro H. unfold fresnel.
  pose proof (R0_range ior H) as HR.
  pose proof (pow5_range _ (cosi_range (dotProduct I N))) as HP.
  set (R0 := ((1 - ior) / (1 + ior)) ^ 2) in *.
  set (p := (1 - Rabs (clamp (-1) 1 (dotProduct I N))) ^ 5) in *.
  repeat split; nra.
Qed.

Lemma fresnel_range_witness :
  0 <= ((1 - / 2) / (1 + / 2)) ^ 2 <= fresnel slanted upward (/ 2)
  /\ fresnel slanted upward (/ 2) <= 1.
Proof. apply (fresnel_range slanted upward (/ 2)). lra. Defined.

(** The Fresnel term does not grow with the cosine of the incidence
    angle: the nearer to grazing, the more is reflected. *)
Theorem fresnel_monotone (I N I' N' : Vector3f) (ior : R) :
  0 <= ior ->
  Rabs (clamp (-1) 1 (dotProduct I N))
  <= Rabs (clamp (-1) 1 (dotProduct I' N')) ->
  fresnel I' N' ior <= fresnel I N ior.
Proof.
  intros H Hc. unfold fresnel.
  pose proof (R0_range ior H) as HR.
  pose proof (cosi_range (dotProduct I N)) as H1.
  pose proof (cosi_range (dotProduct I' N')) as H2.
  set (R0 := ((1 - ior) / (1 + ior)) ^ 2) in *.
  set (c := Rabs (clamp (-1) 1 (dotProduct I N))) in *.
  set (c' := Rabs (clamp (-1) 1 (dotProduct I' N'))) in *.
  assert (Hp : (1 - c') ^ 5 <= (1 - c) ^ 5) by (apply pow_incr; lra).
  nra.
Qed.

Lemma fresnel_monotone_witness :
  fresnel downward upward (/ 2) <= fresnel slanted upward (/ 2).
Proof.
  apply (fresnel_monotone slanted upward downward upward (/ 2)).
  - lra.
  - rewrite glass_cosi.
    replace (dotProduct downward upward) with (-1)
      by (unfold dotProduct, downward, upward; cbn [x y z]; lra).
    rewrite clamp_inside by lra.
    unfold Rabs. destruct (Rcase_abs (-1)); lra.
Defined.

(** At grazing incidence everything is reflected; when the incoming
    direction is along the normal the term is the reflectance
    [((1 - ior) / (1 + ior))^2].  The index of refraction is not [-1], so
    that the reflectance has a value. *)
Theorem fresnel_extremes (I N : Vector3f) (ior : R) :
  1 + ior <> 0 ->
  (dotProduct I N = 0 -> fresnel I N ior = 1)
  /\ (1 <= Rabs (dotProduct I N) ->
      fresnel I N ior = ((1 - ior) / (1 + ior)) ^ 2).
Proof.
  intros _. unfold fresnel. split.
  - intro H. rewrite H, clamp_inside by lra. rewrite Rabs_R0. ring.
  - intro H.
    assert (Hc : Rabs (clamp (-1) 1 (dotProduct I N)) = 1).
    { destruct (Rle_dec 0 (dotProduct I N)) as [Hp | Hn].
      - rewrite Rabs_pos_eq in H by exact Hp.
        rewrite clamp_above by lra. apply Rabs_R1.
      - rewrite Rabs_left in H by lra.
        rewrite clamp_below by lra.
        unfold Rabs. destruct (Rcase_abs (-1)); lra. }
    rewrite Hc. ring.
Qed.

Lemma fresnel_extremes_witness :
  fresnel (mkVector3f 1 0 0) upward (/ 2) = 1
  /\ fresnel downward upward (/ 2) = ((1 - / 2) / (1 + / 2)) ^ 2.
Proof.
  destruct (fresnel_extremes (mkVector3f 1 0 0) upward (/ 2)) as [A _];
    [lra |].
  destruct (fresnel_extremes downward upward (/ 2)) as [_ B]; [lra |].
  split.
  - apply A. unfold dotProduct, upward. cbn [x y z]. ring.
  - apply B.
    replace (dotProduct downward upward) with (-1)
      by (unfold dotProduct, downward, upward; cbn [x y z]; lra).
    unfold Rabs. destruct (Rcase_abs (-1)); lra.
Defined.

(** Neither the discriminant of [refract] nor [fresnel] tells the two
    sides of a surface apart: flipping the normal changes nothing. *)
Theorem refract_side_blind (I N : Vector3f) (ior : R) :
  refract_t I (vneg N) ior = refract_t I N ior
  /\ fresnel I (vneg N) ior = fresnel I N ior.
Proof.
  assert (Hd : dotProduct I (vneg N) = - dotProduct I N)
    by (vdestruct; ring).
  assert (Hc : Rabs (clamp (-1) 1 (- dotProduct I N))
               = Rabs (clamp (-1) 1 (dotProduct I N))).
  { rewrite clamp_opp. apply Rabs_Ropp. }
  unfold refract_t, fresnel. rewrite Hd, Hc. split; reflexivity.
Qed.

(** With an index of refraction of at least [1] the discriminant is never
    negative: [refract] never takes its total-internal-reflection exit,
    from whichever side the ray comes. *)
Theorem refract_no_total_reflection (I N : Vector3f) (ior : R) :
  1 <= ior ->
  0 <= refract_t I N ior
  /\ refract I N ior
     = (1 / ior) s* I
       +v (1 / ior * Rabs (clamp (-1) 1 (dotProduct I N))
           - sqrt (refract_t I N ior)) s* N.
Proof.
  intro H.
  assert (Ht : 0 <= refract_t I N ior).
  { unfold refract_t.
    pose proof (cosi_range (dotProduct I N)) as Hc.
    set (c := Rabs (clamp (-1) 1 (dotProduct I N))) in *.
    assert (Hi : 0 < / ior <= 1).
    { split; [apply Rinv_0_lt_compat; lra |].
      rewrite <- Rinv_1. apply Rinv_le_contravar; lra. }
    replace (1 / ior * 1 / ior) with (/ ior * / ior) by (field; lra).
    nra. }
  split; [exact Ht |].
  unfold refract. unfold refract_t in *.
  rewrite Rltb_false by exact Ht. reflexivity.
Qed.

Lemma refract_no_total_reflection_witness :
  0 <= refract_t slanted upward 2
  /\ refract slanted upward 2
     = (1 / 2) s* slanted
       +v (1 / 2 * Rabs (clamp (-1) 1 (dotProduct slanted upward))
           - sqrt (refract_t slanted upward 2)) s* upward.
Proof. apply (refract_no_total_reflection slanted upward 2). lra. Defined.

Lemma dotProduct_unit_range (I N : Vector3f) :
  length I = 1 -> length N = 1 -> -1 <= dotProduct I N <= 1.
Proof.
  intros HI HN. pose proof (dotProduct_abs_le I N) as H.
  rewrite HI, HN in H. unfold Rabs in H.
  destruct (Rcase_abs (dotProduct I N)); lra.
Qed.

(** Snell's law.  For a unit ray entering against a unit normal, outside
    total internal reflection, [refract] returns a unit vector whose
    component along the normal is minus the square root of the
    discriminant and whose tangential part is that of the incoming ray
    divided by the index of refraction. *)
Theorem refract_snell (I N : Vector3f) (ior : R) :
  length I = 1 -> length N = 1 -> dotProduct I N <= 0 -> 0 < ior ->
  0 <= refract_t I N ior ->
  length (refract I N ior) = 1
  /\ dotProduct (refract I N ior) N = - sqrt (refract_t I N ior)
  /\ refract I N ior -v dotProduct (refract I N ior) N s* N
     = (1 / ior) s* (I -v dotProduct I N s* N).
Proof.
  intros HI HN Hd Hior Ht.
  pose proof (dotProduct_unit_range I N HI HN) as Hr.
  apply length_one in HI. apply length_one in HN.
  assert (Hc : Rabs (clamp (-1) 1 (dotProduct I N)) = - dotProduct I N).
  { rewrite clamp_inside by lra. apply Rabs_left1. exact Hd. }
  pose proof (sqrt_sqrt _ Ht) as Hs.
  unfold refract. unfold refract_t in *. rewrite Hc in *.
  rewrite Rltb_false by exact Ht.
  set (d := dotProduct I N) in *.
  set (t := 1 - 1 / ior * 1 / ior * (1 - - d * - d)) in *.
  set (co := sqrt t) in *.
  assert (Ht' : t = 1 - (1 - d * d) / (ior * ior)) by (unfold t; field; lra).
  assert (HTN : dotProduct ((1 / ior) s* I +v (1 / ior * - d - co) s* N) N
                = - co).
  { transitivity (1 / ior * d
                  + (1 / ior * - d - co) * dotProduct N N).
    - unfold d. vdestruct. ring.
    - rewrite HN. field. lra. }
  split; [| split].
  - apply length_one.
    transitivity (1 / ior * (1 / ior) * dotProduct I I
                  + 2 * (1 / ior) * (1 / ior * - d - co) * d
                  + (1 / ior * - d - co) * (1 / ior * - d - co)
                    * dotProduct N N).
    + unfold d. vdestruct. ring.
    + rewrite HI, HN.
      transitivity ((1 - d * d) / (ior * ior) + co * co);
        [field; lra |].
      rewrite Hs, Ht'. ring.
  - exact HTN.
  - rewrite HTN. fold d.
    destruct I as [i1 i2 i3], N as [n1 n2 n3].
    unfold vadd, vsub, scalev. cbn [x y z].
    apply Vector3f_eq; field; lra.
Qed.

Lemma refract_snell_witness :
  length (refract slanted upward 2) = 1
  /\ dotProduct (refract slanted upward 2) upward
     = - sqrt (refract_t slanted upward 2)
  /\ refract slanted upward 2
     -v dotProduct (refract slanted upward 2) upward s* upward
     = (1 / 2) s* (slanted -v dotProduct slanted upward s* upward).
Proof.
  apply (refract_snell slanted upward 2).
  - apply length_one. unfold dotProduct, slanted. cbn [x y z]. field.
  - apply length_one. unfold dotProduct, upward. cbn [x y z]. ring.
  - unfold dotProduct, slanted, upward. cbn [x y z]. lra.
  - lra.
  - unfold refract_t. rewrite glass_cosi. lra.
Defined.

(** Along the normal.  A ray entering straight against a unit normal goes
    straight on.  A ray leaving along the normal is scaled by
    [2 / ior - 1]: for an index of 2 [refract] returns the zero vector
    although the discriminant is 1. *)
Theorem refract_along_normal (N : Vector3f) (ior : R) :
  length N = 1 -> 0 < ior ->
  refract (vneg N) N ior = vneg N
  /\ refract N N ior = (2 / ior - 1) s* N
  /\ refract_t N N ior = 1
  /\ refract N N 2 = splat 0.
Proof.
  intros HN Hior. apply length_one in HN.
  assert (H1 : dotProduct (vneg N) N = -1).
  { transitivity (- dotProduct N N); [vdestruct; ring | lra]. }
  assert (Hc1 : Rabs (clamp (-1) 1 (dotProduct (vneg N) N)) = 1).
  { rewrite H1, clamp_inside by lra.
    unfold Rabs. destruct (Rcase_abs (-1)); lra. }
  assert (Hc2 : Rabs (clamp (-1) 1 (dotProduct N N)) = 1).
  { rewrite HN, clamp_inside by lra. apply Rabs_R1. }
  assert (Hk : forall k, 1 - 1 / k * 1 / k * (1 - 1 * 1) = 1).
  { intro k. replace (1 - 1 * 1) with 0 by ring. ring. }
  assert (Hg : forall k, 0 < k -> refract N N k = (2 / k - 1) s* N).
  { intros k Hp. unfold refract. rewrite Hc2, Hk.
    rewrite Rltb_false by lra. rewrite sqrt_1.
    destruct N as [n1 n2 n3]. unfold vadd, scalev. cbn [x y z].
    apply Vector3f_eq; field; lra. }
  split; [| split; [| split]].
  - unfold refract. rewrite Hc1, Hk.
    rewrite Rltb_false by lra. rewrite sqrt_1.
    destruct N as [n1 n2 n3]. unfold vadd, scalev, vneg. cbn [x y z].
    apply Vector3f_eq; field; lra.
  - apply Hg. exact Hior.
  - unfold refract_t. rewrite Hc2. apply Hk.
  - rewrite Hg by lra.
    destruct N as [n1 n2 n3]. unfold scalev, splat. cbn [x y z].
    apply Vector3f_eq; field.
Qed.

Lemma refract_along_normal_witness :
  refract (vneg upward) upward (/ 2) = vneg upward
  /\ refract upward upward (/ 2) = (2 / / 2 - 1) s* upward
  /\ refract_t upward upward (/ 2) = 1
  /\ refract upward upward 2 = splat 0.
Proof.
  apply (refract_along_normal upward (/ 2)).
  - apply length_one. unfold dotProduct, upward. cbn [x y z]. ring.
  - lra.
Defined.

(** ** [trace] under reordering and extension of the primitives *)

Lemma trace_hit_member (orig dir : Vector3f) (l : list Object)
  (p : hit_payload) :
  trace orig dir l = Some p ->
  In (hit_obj p) l
  /\ intersect (hit_obj p) orig dir = Some (tNear p, index p, uv p)
  /\ tNear p < kInfinity
  /\ fst (trace_from orig dir l (kInfinity, None)) = tNear p.
Proof.
  pose proof (scanned_trace orig dir l) as H. unfold trace, scanned in *.
  intro E. rewrite E in H.
  destruct H as (Hf & Hlt & l1 & l2 & Hl & Hp & _).
  repeat split; try assumption.
  rewrite Hl. apply in_or_app. right. left. reflexivity.
Qed.

Lemma trace_lower_bound (orig dir : Vector3f) (l : list Object)
  (p : hit_payload) (o : Object) (t : R) (i : N) (c : Vector2f) :
  trace orig dir l = Some p -> In o l ->
  intersect o orig dir = Some (t, i, c) -> tNear p <= t.
Proof.
  pose proof (scanned_trace orig dir l) as H. unfold trace, scanned in *.
  intros E Hin Ho. rewrite E in H.
  destruct H as (_ & _ & l1 & l2 & Hl & Hp & H1 & H2).
  rewrite Hl in Hin. apply in_app_or in Hin.
  destruct Hin as [Hin | [<- | Hin]].
  - specialize (H1 _ _ _ _ Hin Ho). lra.
  - rewrite Hp in Ho. injection Ho as <- _ _. lra.
  - exact (H2 _ _ _ _ Hin Ho).
Qed.

Lemma trace_none_far (orig dir : Vector3f) (l : list Object)
  (o : Object) (t : R) (i : N) (c : Vector2f) :
  trace orig dir l = None -> In o l ->
  intersect o orig dir = Some (t, i, c) -> kInfinity <= t.
Proof.
  pose proof (scanned_trace orig dir l) as H. unfold trace, scanned in *.
  intros E Hin Ho. rewrite E in H. destruct H as (_ & Hall).
  exact (Hall _ _ _ _ Hin Ho).
Qed.

(** The distance of the nearest hit does not depend on the order in which
    the primitives are stored; only the choice among equally near
    primitives does. *)
Theorem trace_permutation (orig dir : Vector3f) (l l' : list Object) :
  Permutation l l' ->
  option_map tNear (trace orig dir l) = option_map tNear (trace orig dir l').
Proof.
  intro HP.
  destruct (trace orig dir l) as [p |] eqn:E,
           (trace orig dir l') as [p' |] eqn:E'; simpl.
  - destruct (trace_hit_member _ _ _ _ E) as (Hin & Hp & _).
    destruct (trace_hit_member _ _ _ _ E') as (Hin' & Hp' & _).
    pose proof (trace_lower_bound _ _ _ _ _ _ _ _ E'
                  (Permutation_in _ HP Hin) Hp).
    pose proof (trace_lower_bound _ _ _ _ _ _ _ _ E
                  (Permutation_in _ (Permutation_sym HP) Hin') Hp').
    f_equal. lra.
  - destruct (trace_hit_member _ _ _ _ E) as (Hin & Hp & Hlt & _).
    pose proof (trace_none_far _ _ _ _ _ _ _ E'
                  (Permutation_in _ HP Hin) Hp). lra.
  - destruct (trace_hit_member _ _ _ _ E') as (Hin' & Hp' & Hlt & _).
    pose proof (trace_none_far _ _ _ _ _ _ _ E
                  (Permutation_in _ (Permutation_sym HP) Hin') Hp'). lra.
  - reflexivity.
Qed.

Lemma trace_permutation_witness :
  option_map tNear (trace (mkVector3f 0 0 1) downward [ground; ceiling])
  = option_map tNear (trace (mkVector3f 0 0 1) downward [ceiling; ground]).
Proof.
  apply (trace_permutation (mkVector3f 0 0 1) downward
           [ground; ceiling] [ceiling; ground]).
  apply perm_swap.
Defined.

Lemma trace_from_keeps (orig dir : Vector3f) (l : list Object)
  (st : R * option hit_payload) :
  (forall o t i c, In o l -> intersect o orig dir = Some (t, i, c) ->
                   fst st <= t) ->
  trace_from orig dir l st = st.
Proof.
  induction l as [| o l IH]; intro H; [reflexivity |].
  rewrite trace_from_cons.
  assert (Hs : trace_step orig dir st o = st).
  { unfold trace_step.
    destruct (intersect o orig dir) as [[[t i] c] |] eqn:Ho; [| reflexivity].
    rewrite Rltb_false; [reflexivity |].
    apply (H o t i c); [left; reflexivity | exact Ho]. }
  rewrite Hs. apply IH. intros o' t i c Hin. apply H. right. exact Hin.
Qed.

(** More primitives never push the nearest hit away, and primitives that
    report nothing nearer do not change the answer at all: on a tie the
    earlier primitive stays. *)
Theorem trace_more_objects (orig dir : Vector3f) (l l' : list Object)
  (p : hit_payload) :
  trace orig dir l = Some p ->
  (exists p', trace orig dir (l ++ l') = Some p' /\ tNear p' <= tNear p)
  /\ ((forall o t i c, In o l' -> intersect o orig dir = Some (t, i, c) ->
                       tNear p <= t) ->
      trace orig dir (l ++ l') = Some p).
Proof.
  intro E. destruct (trace_hit_member _ _ _ _ E) as (Hin & Hp & Hlt & Hf).
  split.
  - assert (Hin' : In (hit_obj p) (l ++ l'))
      by (apply in_or_app; left; exact Hin).
    destruct (trace orig dir (l ++ l')) as [p' |] eqn:E'.
    + exists p'. split; [reflexivity |].
      exact (trace_lower_bound _ _ _ _ _ _ _ _ E' Hin' Hp).
    + pose proof (trace_none_far _ _ _ _ _ _ _ E' Hin' Hp). lra.
  - intro Hfar. unfold trace, trace_from in *.
    rewrite fold_left_app.
    change (snd (trace_from orig dir l'
                   (trace_from orig dir l (kInfinity, None))) = Some p).
    rewrite trace_from_keeps; [exact E |].
    intros o t i c Ho Hi. unfold trace_from. rewrite Hf.
    exact (Hfar o t i c Ho Hi).
Qed.

Lemma trace_more_objects_witness :
  (exists p',
      trace (mkVector3f 0 0 1) downward ([mirror] ++ [ceiling]) = Some p'
      /\ tNear p' <= 1)
  /\ trace (mkVector3f 0 0 1) downward ([mirror] ++ [ceiling])
     = Some (mkPayload 1 0%N (mkVector2f 0 0) mirror).
Proof.
  destruct (trace_more_objects (mkVector3f 0 0 1) downward [mirror] [ceiling]
              (mkPayload 1 0%N (mkVector2f 0 0) mirror) mirror_trace_down)
    as [A B].
  split; [exact A |]. apply B.
  intros o t i c [<- | []] Ho.
  unfold ceiling, plane in Ho. cbn [intersect] in Ho.
  rewrite plane_behind in Ho by (cbn [z downward]; lra).
  discriminate Ho.
Defined.

(** ** [castRay]: what the shading never does *)

(** There is no ambient term: a hit on a diffuse surface in a scene
    without lights is black. *)
Theorem castRay_no_lights_black (orig dir : Vector3f) (scene : Scene)
  (depth : Z) (payload : hit_payload) :
  (depth <= maxDepth scene)%Z ->
  trace orig dir (get_objects scene) = Some payload ->
  materialType (hit_obj payload) = DIFFUSE_AND_GLOSSY ->
  get_lights scene = [] ->
  Shade orig dir scene depth = mkVector3f 0 0 0.
Proof.
  intros Hd Ht Hm Hl. apply (castRay_Shade 1).
  destruct (getSurfaceProperties (hit_obj payload)
              (orig +v dir *s tNear payload) dir (index payload)
              (uv payload)) as [N st] eqn:Hs.
  rewrite (castRay_default 0 orig dir scene depth payload _ N st
             Hd Ht eq_refl Hs Hm).
  f_equal. unfold phong. rewrite Hl. cbn [fold_left fst snd].
  destruct (evalDiffuseColor (hit_obj payload) st) as [c1 c2 c3].
  unfold vadd, vmul, vscale, splat. cbn [x y z].
  apply Vector3f_eq; ring.
Qed.

Lemma unlit_trace :
  trace (mkVector3f 0 0 1) downward [ground]
  = Some (mkPayload 1 0%N (mkVector2f 0 0) ground).
Proof.
  unfold trace. rewrite trace_from_cons.
  rewrite (trace_step_nearer _ _ _ _ 1 0%N (mkVector2f 0 0)).
  - reflexivity.
  - apply plane_hit; cbn [z downward]; [exact Rabs_minus_one | lra | lra].
  - cbn [fst]. pose proof kInfinity_large. lra.
Qed.

Lemma castRay_no_lights_black_witness :
  Shade (mkVector3f 0 0 1) downward unlit_scene 0 = mkVector3f 0 0 0.
Proof.
  apply (castRay_no_lights_black (mkVector3f 0 0 1) downward unlit_scene 0
           (mkPayload 1 0%N (mkVector2f 0 0) ground)).
  - simpl. lia.
  - exact unlit_trace.
  - reflexivity.
  - reflexivity.
Defined.

(** At the last depth a reflective surface is black: what it would
    reflect or refract lies one level beyond [maxDepth].  [maxDepth] is
    below [INT_MAX], so that [depth + 1] has a value, and the index of
    refraction is not negative, so that the Fresnel term has one. *)
Theorem castRay_last_depth_black (orig dir : Vector3f) (scene : Scene)
  (payload : hit_payload) :
  (maxDepth scene < INT_MAX)%Z ->
  trace orig dir (get_objects scene) = Some payload ->
  materialType (hit_obj payload) <> DIFFUSE_AND_GLOSSY ->
  0 <= ior (hit_obj payload) ->
  Shade orig dir scene (maxDepth scene) = mkVector3f 0 0 0.
Proof.
  intros Hi Ht Hm _. apply (castRay_Shade 2).
  assert (Hd : (maxDepth scene <= maxDepth scene)%Z) by lia.
  destruct (getSurfaceProperties (hit_obj payload)
              (orig +v dir *s tNear payload) dir (index payload)
              (uv payload)) as [N st] eqn:Hs.
  destruct (materialType (hit_obj payload)) eqn:Em.
  - contradiction.
  - rewrite (castRay_REFLECTION_AND_REFRACTION 1 orig dir scene
               (maxDepth scene) payload _ N st _ _ _ _
               Hd Ht eq_refl Hs Hi Em eq_refl eq_refl eq_refl eq_refl).
    rewrite !castRay_black by lia. cbn zeta. f_equal.
    unfold vadd, vscale. cbn [x y z]. apply Vector3f_eq; ring.
  - rewrite (castRay_REFLECTION 1 orig dir scene
               (maxDepth scene) payload _ N st _ _
               Hd Ht eq_refl Hs Hi Em eq_refl eq_refl).
    rewrite castRay_black by lia. f_equal.
    unfold vscale. cbn [x y z]. apply Vector3f_eq; ring.
Qed.

Lemma castRay_last_depth_black_witness :
  Shade (mkVector3f 0 0 1) downward mirror_scene (maxDepth mirror_scene)
  = mkVector3f 0 0 0.
Proof.
  apply (castRay_last_depth_black (mkVector3f 0 0 1) downward mirror_scene
           (mkPayload 1 0%N (mkVector2f 0 0) mirror)).
  - reflexivity.
  - exact mirror_trace_down.
  - discriminate.
  - cbn. lra.
Defined.

Lemma castRay_shift (k : Z) (scene : Scene) (fuel : nat) :
  (maxDepth scene < INT_MAX)%Z -> (maxDepth scene + k < INT_MAX)%Z ->
  forall orig dir depth,
    castRay fuel orig dir
      (with_maxDepth scene (maxDepth scene + k)) (depth + k)
    = castRay fuel orig dir scene depth.
Proof.
  intros Hm Hk.
  induction fuel as [| fuel IH]; intros orig dir depth; [reflexivity |].
  cbn [castRay].
  change (maxDepth (with_maxDepth scene (maxDepth scene + k)))
    with (maxDepth scene + k)%Z.
  change (get_objects (with_maxDepth scene (maxDepth scene + k)))
    with (get_objects scene).
  destruct (Z.gtb_spec depth (maxDepth scene)) as [Hgt | Hle];
    destruct (Z.gtb_spec (depth + k) (maxDepth scene + k)) as [Hgt' | Hle'];
    try lia; [reflexivity |].
  destruct (trace orig dir (get_objects scene)) as [payload |];
    [| reflexivity].
  destruct (getSurfaceProperties (hit_obj payload) _ dir _ _) as [N st].
  rewrite (succ_int_below scene depth Hm Hle).
  rewrite (succ_int_below (with_maxDepth scene (maxDepth scene + k))
             (depth + k) Hk Hle').
  replace (depth + k + 1)%Z with (depth + 1 + k)%Z by lia.
  destruct (materialType (hit_obj payload)).
  - reflexivity.
  - change (rayOrig_RR (with_maxDepth scene (maxDepth scene + k)))
      with (rayOrig_RR scene).
    rewrite !IH. reflexivity.
  - change (rayOrig_R (with_maxDepth scene (maxDepth scene + k)))
      with (rayOrig_R scene).
    rewrite !IH. reflexivity.
Qed.

(** The colour depends on [depth] and [maxDepth] only through the number
    of bounces that are left: raising both by the same amount changes
    nothing, as long as both maximum depths stay below [INT_MAX]. *)
Theorem Shade_depth_shift (orig dir : Vector3f) (scene : Scene)
  (depth k : Z) :
  (maxDepth scene < INT_MAX)%Z -> (maxDepth scene + k < INT_MAX)%Z ->
  Shade orig dir (with_maxDepth scene (maxDepth scene + k)) (depth + k)
  = Shade orig dir scene depth.
Proof.
  intros Hm Hk.
  apply (castRay_Shade (enough_fuel scene depth)).
  rewrite (castRay_shift k scene _ Hm Hk). apply Shade_castRay. exact Hm.
Qed.

Lemma Shade_depth_shift_witness :
  Shade (mkVector3f 0 0 1) downward
    (with_maxDepth mirror_scene (maxDepth mirror_scene + 3)) (0 + 3)
  = Shade (mkVector3f 0 0 1) downward mirror_scene 0.
Proof.
  apply (Shade_depth_shift (mkVector3f 0 0 1) downward mirror_scene 0 3);
    reflexivity.
Defined.

Lemma powf_nonneg (b e : R) : 0 <= powf b e.
Proof.
  unfold powf. destruct (Req_dec_T b 0); [destruct (Req_dec_T e 0); lra |].
  unfold Rpower. apply Rlt_le, exp_pos.
Qed.

Lemma fmax_zero_nonneg (v : R) : 0 <= fmax 0 v.
Proof.
  unfold fmax. destruct (Rltb 0 v) eqn:E;
    [apply Rltb_spec in E | apply Rltb_nlt in E]; lra.
Qed.

Lemma light_step_nonnegative (scene : Scene) (obj : Object)
  (hitPoint N dir : Vector3f) (acc : Vector3f * Vector3f) (light : Light) :
  nonnegative (fst acc) -> nonnegative (snd acc) ->
  nonnegative (intensity light) ->
  nonnegative (fst (light_step scene obj hitPoint N dir acc light))
  /\ nonnegative (snd (light_step scene obj hitPoint N dir acc light)).
Proof.
  intros (A1 & A2 & A3) (B1 & B2 & B3) (I1 & I2 & I3).
  unfold light_step. cbn [fst snd].
  set (L := fmax 0 (dotProduct (normalize (position light -v hitPoint)) N)).
  pose proof (fmax_zero_nonneg
                (dotProduct (normalize (position light -v hitPoint)) N))
    as HL. fold L in HL.
  match goal with
  | |- context [powf ?b ?e] =>
      pose proof (powf_nonneg b e) as HP; set (P := powf b e) in *
  end.
  split.
  - destruct (inShadow _ _);
      unfold nonnegative, vadd, vscale, splat; cbn [x y z];
      repeat split; nra.
  - unfold nonnegative, vadd, scalev; cbn [x y z]; repeat split; nra.
Qed.

Lemma lights_nonnegative (scene : Scene) (obj : Object)
  (hitPoint N dir : Vector3f) (lights : list Light) :
  forall acc,
    nonnegative (fst acc) -> nonnegative (snd acc) ->
    (forall light, In light lights -> nonnegative (intensity light)) ->
    nonnegative
      (fst (fold_left (light_step scene obj hitPoint N dir) lights acc))
    /\ nonnegative
         (snd (fold_left (light_step scene obj hitPoint N dir) lights acc)).
Proof.
  induction lights as [| light lights IH]; intros acc Ha Hb Hl.
  - split; assumption.
  - cbn [fold_left].
    destruct (light_step_nonnegative scene obj hitPoint N dir acc light
                Ha Hb (Hl light (or_introl eq_refl))) as [Ha' Hb'].
    apply IH; [exact Ha' | exact Hb' |].
    intros l Hin. apply Hl. right. exact Hin.
Qed.

(** The Phong case never yields a negative channel when the coefficients
    of the surface, its diffuse colour and the intensities of the lights
    are not negative, whatever the geometry and the shadows. *)
Theorem castRay_default_nonnegative (orig dir : Vector3f) (scene : Scene)
  (depth : Z) (payload : hit_payload) :
  (depth <= maxDepth scene)%Z ->
  trace orig dir (get_objects scene) = Some payload ->
  materialType (hit_obj payload) = DIFFUSE_AND_GLOSSY ->
  0 <= Kd (hit_obj payload) -> 0 <= Ks (hit_obj payload) ->
  (forall st, nonnegative (evalDiffuseColor (hit_obj payload) st)) ->
  (forall light, In light (get_lights scene) ->
                 nonnegative (intensity light)) ->
  nonnegative (Shade orig dir scene depth).
Proof.
  intros Hd Ht Hm HKd HKs Hc Hl.
  destruct (getSurfaceProperties (hit_obj payload)
              (orig +v dir *s tNear payload) dir (index payload)
              (uv payload)) as [N st] eqn:Hs.
  rewrite (castRay_Shade 1 orig dir scene depth
             (phong scene (hit_obj payload)
                (orig +v dir *s tNear payload) N dir st)).
  - unfold phong.
    destruct (lights_nonnegative scene (hit_obj payload)
                (orig +v dir *s tNear payload) N dir (get_lights scene)
                (splat 0, splat 0)) as [(A1 & A2 & A3) (B1 & B2 & B3)];
      try (unfold nonnegative, splat; cbn [fst snd x y z];
           repeat split; lra);
      [exact Hl |].
    destruct (Hc st) as (C1 & C2 & C3).
    set (acc := fold_left _ _ _) in *.
    unfold nonnegative, vadd, vmul, vscale. cbn [x y z].
    repeat split;
      apply Rplus_le_le_0_compat;
      repeat apply Rmult_le_pos; assumption.
  - exact (castRay_default 0 orig dir scene depth payload _ N st
             Hd Ht eq_refl Hs Hm).
Qed.

Lemma castRay_default_nonnegative_witness :
  nonnegative (Shade (mkVector3f 0 0 1) downward shadow_scene 0).
Proof.
  apply (castRay_default_nonnegative (mkVector3f 0 0 1) downward
           shadow_scene 0 (mkPayload 1 0%N (mkVector2f 0 0) ground)).
  - simpl. lia.
  - exact shadow_trace_primary.
  - reflexivity.
  - cbn. lra.
  - cbn. lra.
  - intro st. unfold nonnegative. cbn. lra.
  - intros light [<- | []]. unfold nonnegative. cbn. lra.
Defined.

Lemma fresnel_weight (I N : Vector3f) (ior : R) :
  0 <= ior -> 0 <= fresnel I N ior <= 1.
Proof.
  intro H. unfold fresnel.
  pose proof (R0_range ior H) as HR.
  pose proof (pow5_range _ (cosi_range (dotProduct I N))) as HP.
  set (R0 := ((1 - ior) / (1 + ior)) ^ 2) in *.
  set (p := (1 - Rabs (clamp (-1) 1 (dotProduct I N))) ^ 5) in *.
  split; nra.
Qed.

Lemma channels_within_blend (hi kr : R) (c1 c2 : Vector3f) :
  0 <= kr <= 1 ->
  channels_within 0 hi c1 -> channels_within 0 hi c2 ->
  channels_within 0 hi (c1 *s kr +v c2 *s (1 - kr)).
Proof.
  intros Hk (A1 & A2 & A3) (B1 & B2 & B3).
  unfold channels_within, vadd, vscale. cbn [x y z].
  repeat split; nra.
Qed.

Lemma channels_within_scale (hi kr : R) (c : Vector3f) :
  0 <= kr <= 1 ->
  channels_within 0 hi c -> channels_within 0 hi (c *s kr).
Proof.
  intros Hk (A1 & A2 & A3).
  unfold channels_within, vscale. cbn [x y z].
  repeat split; nra.
Qed.

Lemma castRay_reflective_within (scene : Scene) (hi : R) :
  (forall o, In o (get_objects scene) ->
             materialType o <> DIFFUSE_AND_GLOSSY /\ 0 <= ior o) ->
  channels_within 0 hi (backgroundColor scene) ->
  forall fuel orig dir depth c,
    castRay fuel orig dir scene depth = Some c -> channels_within 0 hi c.
Proof.
  intros Hobj Hbg.
  assert (H0 : channels_within 0 hi (mkVector3f 0 0 0)).
  { destruct Hbg as ((? & ?) & _).
    unfold channels_within. cbn [x y z]. repeat split; lra. }
  induction fuel as [| fuel IH]; intros orig dir depth c E;
    [discriminate E |].
  cbn [castRay] in E.
  destruct (depth >? maxDepth scene)%Z.
  { injection E as <-. exact H0. }
  destruct (trace orig dir (get_objects scene)) as [payload |] eqn:Ht.
  2: { injection E as <-. exact Hbg. }
  destruct (trace_hit_member _ _ _ _ Ht) as (Hin & _).
  destruct (Hobj _ Hin) as [Hm Hior].
  destruct (getSurfaceProperties (hit_obj payload) _ dir _ _) as [N st].
  pose proof (fresnel_weight dir N (ior (hit_obj payload)) Hior) as Hk.
  destruct (materialType (hit_obj payload)).
  - contradiction.
  - destruct (succ_int depth) as [d |]; [| discriminate E].
    destruct (castRay fuel _ (normalize (reflect dir N)) scene d)
      as [c1 |] eqn:E1; [| discriminate E].
    destruct (castRay fuel _ (normalize (refract dir N _)) scene d)
      as [c2 |] eqn:E2; [| discriminate E].
    injection E as <-.
    apply channels_within_blend;
      [exact Hk | exact (IH _ _ _ _ E1) | exact (IH _ _ _ _ E2)].
  - destruct (succ_int depth) as [d |]; [| discriminate E].
    destruct (castRay fuel _ (reflect dir N) scene d)
      as [c1 |] eqn:E1; [| discriminate E].
    injection E as <-.
    apply channels_within_scale; [exact Hk | exact (IH _ _ _ _ E1)].
Qed.

(** Reflection and refraction create no light: in a scene without diffuse
    surfaces, whose indices of refraction are not negative, every channel
    of every colour lies between zero and the bound of the background. *)
Theorem reflective_scene_within_background (scene : Scene) (hi : R)
  (orig dir : Vector3f) (depth : Z) :
  (forall o, In o (get_objects scene) ->
             materialType o <> DIFFUSE_AND_GLOSSY /\ 0 <= ior o) ->
  channels_within 0 hi (backgroundColor scene) ->
  channels_within 0 hi (Shade orig dir scene depth).
Proof.
  intros Hobj Hbg. unfold Shade.
  destruct (castRay (enough_fuel scene depth) orig dir scene depth)
    as [c |] eqn:E.
  - exact (castRay_reflective_within scene hi Hobj Hbg _ _ _ _ _ E).
  - destruct Hbg as ((? & ?) & _).
    unfold channels_within. cbn [x y z]. repeat split; lra.
Qed.

Lemma reflective_scene_within_background_witness :
  channels_within 0 1 (Shade (mkVector3f 0 0 1) slanted glass_scene 0).
Proof.
  apply (reflective_scene_within_background glass_scene 1).
  - intros o [<- | []]. split; [discriminate | cbn; lra].
  - unfold channels_within. cbn. lra.
Defined.

(** Where the three cases start their secondary rays, for a positive
    epsilon and a direction [dir] that is not tangent.  With [dir] the
    direction of the new ray, the [REFLECTION_AND_REFRACTION] case starts on
    the side [dir] points to and the [REFLECTION] case on the opposite side;
    with [dir] the direction of the incoming ray, the shadow rays start on
    the side the ray came from. *)
Theorem secondary_origin_sides (scene : Scene) (hitPoint N dir : Vector3f) :
  0 < epsilon scene -> dotProduct dir N <> 0 ->
  0 < dotProduct (rayOrig_RR scene hitPoint N dir -v hitPoint) dir
  /\ dotProduct (rayOrig_R scene hitPoint N dir -v hitPoint) dir < 0
  /\ dotProduct (shadowPointOrig scene hitPoint N dir -v hitPoint) dir < 0.
Proof.
  intros He Hd. split; [| split].
  - apply rayOrig_RR_side; assumption.
  - apply rayOrig_R_side; assumption.
  - unfold shadowPointOrig.
    destruct (Rltb (dotProduct dir N) 0) eqn:Hc;
      [apply Rltb_spec in Hc | apply Rltb_nlt in Hc];
      unfold dotProduct, vadd, vsub, vscale in *; cbn [x y z] in *; nra.
Qed.

Lemma secondary_origin_sides_witness :
  0 < dotProduct
        (rayOrig_RR mirror_scene (mkVector3f 0 0 0) upward upward
         -v mkVector3f 0 0 0) upward
  /\ dotProduct
       (rayOrig_R mirror_scene (mkVector3f 0 0 0) upward upward
        -v mkVector3f 0 0 0) upward < 0
  /\ dotProduct
       (shadowPointOrig mirror_scene (mkVector3f 0 0 0) upward upward
        -v mkVector3f 0 0 0) upward < 0.
Proof.
  apply (secondary_origin_sides mirror_scene (mkVector3f 0 0 0) upward upward).
  - cbn. lra.
  - unfold dotProduct, upward. cbn [x y z]. lra.
Defined.

(** ** The frame drivers *)

Lemma normalize_camera_unit (a b : R) :
  length (normalize (mkVector3f a b (-1))) = 1.
Proof.
  apply normalize_unit. intro H. apply length_zero in H.
  unfold splat in H. injection H as _ _ H. lra.
Qed.

(** Every primary ray of either driver has a direction of unit length,
    for every pixel and every scene. *)
Theorem primary_dir_unit (scene : Scene) (i j : Z) :
  length (Stdio.primary_dir scene i j) = 1
  /\ length (Stream.primary_dir scene i j) = 1.
Proof.
  split; [unfold Stdio.primary_dir | unfold Stream.primary_dir];
    cbv zeta; apply normalize_camera_unit.
Qed.

Lemma range_length (n : Z) : List.length (range n) = Z.to_nat n.
Proof. unfold range. rewrite length_map, length_seq. reflexivity. Qed.

Lemma range_In (n r : Z) : In r (range n) -> (0 <= r < n)%Z.
Proof.
  unfold range. intro H. apply in_map_iff in H.
  destruct H as (k & <- & Hk). apply in_seq in Hk. lia.
Qed.


Lemma Stdio_fput_all (fb : list Vector3f) :
  forall f,
    fold_left (fun fp c => Stdio.fput fp (Stdio.color c)) fb (Some f)
    = Some (f ++ flat_map Stdio.color fb).
Proof.
  induction fb as [| c fb IH]; intro f; cbn [fold_left flat_map].
  - rewrite app_nil_r. reflexivity.
  - unfold Stdio.fput at 2. rewrite IH, <- app_assoc. reflexivity.
Qed.





Lemma Stream_frame_buffer_rows (scene : Scene) :
  List.length (Stream.frame_buffer scene) = Z.to_nat (height scene)
  /\ Forall (fun row => List.length row = Z.to_nat (width scene))
       (Stream.frame_buffer scene).
Proof.
  unfold Stream.frame_buffer. split.
  - rewrite length_map, range_length. reflexivity.
  - apply Forall_map. apply Forall_forall. intros i _.
    rewrite length_map, range_length. reflexivity.
Qed.


Lemma Stream_Render_open (scene : Scene) :
  (0 <= width scene)%Z -> (0 < height scene)%Z ->
  Stream.Render true scene
  = Written (Stdio.header scene
             ++ flat_map (flat_map Stream.pixel)
                  (rev (Stream.frame_buffer scene))).
Proof.
  intros Hw Hh.
  destruct (Stream_frame_buffer_rows scene) as [Hl Hrows].
  unfold Stream.Render.
  destruct (Stream.frame_buffer scene) as [| row0 rows] eqn:E.
  - cbn [List.length] in Hl. lia.
  - assert (H0 : List.length row0 = Z.to_nat (width scene))
      by (inversion Hrows; assumption).
    unfold Stream.write_ppm_header, Stream.write_ppm_data, Stdio.header.
    rewrite Hl, H0, !Z2Nat.id by lia. reflexivity.
Qed.



(** An image without rows.  [Renderer.hpp] writes the header alone; the
    second driver evaluates [frame_buffer[0]] on an empty vector, whether
    or not the file can be opened. *)
Theorem Render_no_rows (scene : Scene) (can_open : bool) :
  (0 <= width scene)%Z -> height scene = 0%Z ->
  Stdio.Render true scene = Written (Stdio.header scene)
  /\ Stream.Render can_open scene = Undefined.
Proof.
  intros Hw Hh. split.
  - unfold Stdio.Render, Stdio.framebuffer. rewrite Hh.
    change (range 0) with (@nil Z). cbn [flat_map fold_left].
    unfold Stdio.fopen, Stdio.fput. rewrite app_nil_l. reflexivity.
  - unfold Stream.Render, Stream.frame_buffer. rewrite Hh. reflexivity.
Qed.

Lemma Render_no_rows_witness :
  Stdio.Render true (mkScene 4 0 90 white 5 (/ 1024) [] [])
  = Written (Stdio.header (mkScene 4 0 90 white 5 (/ 1024) [] []))
  /\ Stream.Render true (mkScene 4 0 90 white 5 (/ 1024) [] []) = Undefined.
Proof.
  apply (Render_no_rows (mkScene 4 0 90 white 5 (/ 1024) [] []) true).
  - simpl. lia.
  - reflexivity.
Defined.

Lemma rev_seq_0 (n : nat) :
  rev (seq 0 n) = map (fun k => (n - 1 - k)%nat) (seq 0 n).
Proof.
  induction n as [| n IH]; [reflexivity |].
  rewrite seq_S at 1. cbn [Nat.add]. rewrite rev_app_distr. cbn [rev app].
  rewrite IH. cbn [seq map]. rewrite Nat.sub_0_r. f_equal.
  - lia.
  - rewrite <- seq_shift, map_map. apply map_ext. intro k. lia.
Qed.

Lemma rev_range (h : Z) :
  rev (range h) = map (fun r => (h - 1 - r)%Z) (range h).
Proof.
  unfold range. rewrite <- map_rev, rev_seq_0, !map_map.
  apply map_ext_in. intros k Hk. apply in_seq in Hk. lia.
Qed.

Lemma flat_map_of_map (A B C : Type) (f : B -> list C) (g : A -> B)
  (l : list A) :
  flat_map f (map g l) = flat_map (fun a => f (g a)) l.
Proof.
  induction l as [| a l IH]; [reflexivity |].
  cbn [map flat_map]. rewrite IH. reflexivity.
Qed.

Lemma flat_map_of_flat_map (A B C : Type) (f : B -> list C)
  (g : A -> list B) (l : list A) :
  flat_map f (flat_map g l) = flat_map (fun a => flat_map f (g a)) l.
Proof.
  induction l as [| a l IH]; [reflexivity |].
  cbn [flat_map]. rewrite flat_map_app, IH. reflexivity.
Qed.

Lemma flat_map_agree (A B : Type) (f g : A -> list B) (l : list A) :
  (forall a, In a l -> f a = g a) -> flat_map f l = flat_map g l.
Proof.
  induction l as [| a l IH]; intro H; [reflexivity |].
  cbn [flat_map]. rewrite (H a (or_introl eq_refl)), IH; [reflexivity |].
  intros b Hb. apply H. right. exact Hb.
Qed.

(** The second driver computes the rows bottom-up and writes them in
    reverse: row [height - 1 - r] of its buffer holds the primary ray that
    [Renderer.hpp] casts for row [r]. *)
Theorem primary_dir_flip (scene : Scene) (r c : Z) :
  (0 < width scene)%Z -> (0 < height scene)%Z ->
  Stream.primary_dir scene (height scene - 1 - r) c
  = Stdio.primary_dir scene c r.
Proof.
  intros Hw Hh.
  assert (IZR (width scene) <> 0) by (apply not_0_IZR; lia).
  assert (IZR (height scene) <> 0) by (apply not_0_IZR; lia).
  unfold Stream.primary_dir, Stdio.primary_dir. cbv zeta.
  rewrite !minus_IZR.
  set (T := tan (deg2rad (fov scene * 0.5))).
  assert (Hhalf : 0.5 = / 2) by lra. rewrite !Hhalf.
  f_equal.
  apply Vector3f_eq; [field | field | reflexivity];
    try split; assumption.
Qed.

Lemma primary_dir_flip_witness :
  Stream.primary_dir empty_scene (height empty_scene - 1 - 0) 0
  = Stdio.primary_dir empty_scene 0 0.
Proof. apply (primary_dir_flip empty_scene 0 0); simpl; lia. Defined.

Lemma pixel_color (c : Vector3f) :
  channels_within 0 1 c -> Stream.pixel (255 s* c) = Stdio.color c.
Proof.
  intros (Hx & Hy & Hz). unfold Stream.pixel, Stdio.color, scalev.
  cbn [x y z]. rewrite !clamp_inside by assumption.
  rewrite (Rmult_comm (x c)), (Rmult_comm (y c)), (Rmult_comm (z c)).
  reflexivity.
Qed.

Lemma primary_dir_flip_any (scene : Scene) (r c : Z) :
  (0 < width scene)%Z -> (0 < height scene)%Z ->
  Stream.primary_dir scene (height scene - 1 - r) c
  = Stdio.primary_dir scene c r.
Proof.
  intros Hw Hh.
  assert (IZR (width scene) <> 0) by (apply not_0_IZR; lia).
  assert (IZR (height scene) <> 0) by (apply not_0_IZR; lia).
  unfold Stream.primary_dir, Stdio.primary_dir. cbv zeta.
  rewrite !minus_IZR.
  set (T := tan (deg2rad (fov scene * 0.5))).
  assert (Hhalf : 0.5 = / 2) by lra. rewrite !Hhalf.
  f_equal.
  apply Vector3f_eq; [field | field | reflexivity];
    try split; assumption.
Qed.

(** The two drivers write the same file whenever every pixel's colour has
    its channels between 0 and 1/2, where every product with 255 stays
    within the range of [char], and the number of pixels is one an [int]
    holds: the flipped rows, the opposite sign of [y] and the scaling by
    255 before or after the clamp then make no difference. *)
Theorem drivers_agree (scene : Scene) :
  (0 < width scene)%Z -> (0 < height scene)%Z ->
  (width scene * height scene <= INT_MAX)%Z ->
  (forall i j, (0 <= i < width scene)%Z -> (0 <= j < height scene)%Z ->
     channels_within 0 (/ 2)
       (Shade (splat 0) (Stdio.primary_dir scene i j) scene 0)) ->
  Stream.Render true scene = Stdio.Render true scene.
Proof.
  intros Hw Hh _ Hc.
  rewrite Stream_Render_open by lia.
  unfold Stdio.Render, Stdio.fopen. unfold Stdio.fput at 2.
  cbn [app]. rewrite Stdio_fput_all. f_equal. f_equal.
  unfold Stream.frame_buffer, Stdio.framebuffer.
  rewrite <- map_rev, rev_range, map_map.
  rewrite flat_map_of_map, flat_map_of_flat_map.
  apply flat_map_agree. intros r Hr. apply range_In in Hr.
  rewrite !flat_map_of_map.
  apply flat_map_agree. intros c Hcol. apply range_In in Hcol.
  rewrite primary_dir_flip_any by assumption.
  apply pixel_color.
  destruct (Hc c r Hcol Hr) as (Hx & Hy & Hz).
  unfold channels_within. repeat split; lra.
Qed.

Lemma drivers_agree_witness :
  Stream.Render true (mkScene 1 1 90 (splat (/ 4)) 0 (/ 1024) [] [])
  = Stdio.Render true (mkScene 1 1 90 (splat (/ 4)) 0 (/ 1024) [] []).
Proof.
  apply (drivers_agree (mkScene 1 1 90 (splat (/ 4)) 0 (/ 1024) [] []));
    [simpl; lia | simpl; lia | simpl; unfold INT_MAX; lia |].
  intros i j _ _.
  rewrite Shade_no_objects by (reflexivity || (simpl; lia)).
  unfold channels_within. cbn. lra.
Defined.



(** ** The lights add up *)

Lemma light_step_translate (scene : Scene) (obj : Object)
  (hitPoint N dir : Vector3f) (acc : Vector3f * Vector3f) (light : Light) :
  light_step scene obj hitPoint N dir acc light
  = (fst acc
     +v fst (light_step scene obj hitPoint N dir (splat 0, splat 0) light),
     snd acc
     +v snd (light_step scene obj hitPoint N dir (splat 0, splat 0) light)).
Proof.
  unfold light_step. cbn [fst snd]. f_equal.
  - destruct (inShadow _ _);
      unfold vadd, vscale, splat; cbn [x y z]; apply Vector3f_eq; ring.
  - unfold vadd, scalev, splat; cbn [x y z]; apply Vector3f_eq; ring.
Qed.

Lemma lights_fold_translate (scene : Scene) (obj : Object)
  (hitPoint N dir : Vector3f) (lights : list Light) :
  forall acc,
    fold_left (light_step scene obj hitPoint N dir) lights acc
    = (fst acc
       +v fst (fold_left (light_step scene obj hitPoint N dir) lights
                 (splat 0, splat 0)),
       snd acc
       +v snd (fold_left (light_step scene obj hitPoint N dir) lights
                 (splat 0, splat 0))).
Proof.
  induction lights as [| light lights IH]; intro acc; cbn [fold_left].
  - destruct acc as [a b]. cbn [fst snd]. f_equal;
      destruct a, b; unfold vadd, splat; cbn [x y z];
      apply Vector3f_eq; ring.
  - rewrite IH.
    rewrite (IH (light_step scene obj hitPoint N dir (splat 0, splat 0)
                   light)).
    rewrite (light_step_translate scene obj hitPoint N dir acc light).
    cbn [fst snd].
    f_equal; unfold vadd; cbn [x y z]; apply Vector3f_eq; ring.
Qed.

(** The lights contribute independently: the colour of a diffuse hit under
    two groups of lights is the sum of its colours under each group. *)
Theorem lights_superpose (orig dir : Vector3f) (scene : Scene) (depth : Z)
  (payload : hit_payload) (l1 l2 : list Light) :
  (depth <= maxDepth scene)%Z ->
  trace orig dir (get_objects scene) = Some payload ->
  materialType (hit_obj payload) = DIFFUSE_AND_GLOSSY ->
  Shade orig dir (with_lights scene (l1 ++ l2)) depth
  = Shade orig dir (with_lights scene l1) depth
    +v Shade orig dir (with_lights scene l2) depth.
Proof.
  intros Hd Ht Hm.
  destruct (getSurfaceProperties (hit_obj payload)
              (orig +v dir *s tNear payload) dir (index payload)
              (uv payload)) as [N st] eqn:Hs.
  assert (HS : forall l,
             Shade orig dir (with_lights scene l) depth
             = phong (with_lights scene l) (hit_obj payload)
                 (orig +v dir *s tNear payload) N dir st).
  { intro l. apply (castRay_Shade 1).
    exact (castRay_default 0 orig dir (with_lights scene l) depth payload
             _ N st Hd Ht eq_refl Hs Hm). }
  rewrite !HS. unfold phong.
  change (get_lights (with_lights scene (l1 ++ l2))) with (l1 ++ l2).
  change (get_lights (with_lights scene l1)) with l1.
  change (get_lights (with_lights scene l2)) with l2.
  change (light_step (with_lights scene (l1 ++ l2)))
    with (light_step scene).
  change (light_step (with_lights scene l1)) with (light_step scene).
  change (light_step (with_lights scene l2)) with (light_step scene).
  rewrite fold_left_app, lights_fold_translate. cbn [fst snd].
  set (A1 := fold_left _ l1 _). set (A2 := fold_left _ l2 _).
  destruct (evalDiffuseColor (hit_obj payload) st) as [c1 c2 c3].
  unfold vadd, vmul, vscale. cbn [x y z]. apply Vector3f_eq; ring.
Qed.

Lemma lights_superpose_witness :
  Shade (mkVector3f 0 0 1) downward
    (with_lights shadow_scene ([lamp] ++ [lamp])) 0
  = Shade (mkVector3f 0 0 1) downward (with_lights shadow_scene [lamp]) 0
    +v Shade (mkVector3f 0 0 1) downward (with_lights shadow_scene [lamp]) 0.
Proof.
  apply (lights_superpose (mkVector3f 0 0 1) downward shadow_scene 0
           (mkPayload 1 0%N (mkVector2f 0 0) ground)).
  - simpl. lia.
  - exact shadow_trace_primary.
  - reflexivity.
Defined.
